(** * Iterables, iterators and generators; class metaprogramming

    A shallow embedding of the code cells of the two notebooks:

    - chapter 14: the three [Sentence] classes (a hand-written
      [SentenceIterator], a generator function, a generator expression over
      [re.finditer]);
    - chapter 21: the descriptor [Field], the metaclasses [DesNameMeta] and
      [NewDesNameMeta], and the class [SomeClass].

    Python objects live in a heap ([gmap loc obj]); an instance is its class
    and its attribute dictionary; method calls are computations in a state
    and exception monad. *)

From Stdlib Require Import ZArith NArith Ascii String.
From stdpp Require Import gmap strings list fin_maps sorting.

Open Scope string_scope.
Open Scope list_scope.
Open Scope nat_scope.

(** ** Python strings *)

(** A Python [str] is a sequence of Unicode code points. *)
Abbreviation char := N.
Abbreviation str := (list char).

(** The code points of a literal written in ASCII. *)
Definition str_of (s : string) : str :=
  N_of_ascii <$> list_ascii_of_string s.

(** [\w] on the ASCII range: [[a-zA-Z0-9_]]. *)
Definition ascii_word (c : char) : bool :=
  ((48 <=? c) && (c <=? 57) || (65 <=? c) && (c <=? 90) ||
   (97 <=? c) && (c <=? 122) || (c =? 95))%N.

(** Outside the ASCII range [\w] of a [str] pattern follows the Unicode
    database (the alphanumeric code points); the table is an interface. *)
Class UnicodeDB := unicode_alnum : char → bool.

Section regex.
Context `{UDB : !UnicodeDB}.

Definition is_word (c : char) : bool :=
  if (c <? 128)%N then ascii_word c else unicode_alnum c.

(** *** The pattern [r'\w+'] *)

(** Greedy match of [\w+] at the head of the text: the length of the match,
    [0] when the pattern does not match there. *)
Fixpoint match_word_plus (s : str) : nat :=
  match s with
  | c :: s' => if is_word c then S (match_word_plus s') else 0
  | [] => 0
  end.

(** The scanner tries the pattern at each start position, left to right;
    [rest] is the text from position [pos] on. *)
Fixpoint search_from (rest : str) (pos : nat) : option (nat * nat) :=
  match rest with
  | [] => None
  | c :: rest' =>
      if is_word c then Some (pos, pos + match_word_plus rest)
      else search_from rest' (S pos)
  end.

(** [pattern.search(string, pos)]: the span of the first match at or after
    [pos]. *)
Definition search (string : str) (pos : nat) : option (nat * nat) :=
  search_from (drop pos string) pos.

(** [match.group()]: the matched text. *)
Definition group (string : str) (span : nat * nat) : str :=
  take (span.2 - span.1) (drop span.1 string).

(** The loop of [findall] and [finditer]: search, record the match, go on
    from its end. A match of [\w+] is never empty, so the position grows
    and [S (length string - pos)] rounds are enough. *)
Fixpoint scan_loop (fuel : nat) (string : str) (pos : nat)
  : list (nat * nat) :=
  match fuel with
  | 0 => []
  | S fuel' =>
      match search string pos with
      | None => []
      | Some (b, e) => (b, e) :: scan_loop fuel' string e
      end
  end.

Definition spans_from (string : str) (pos : nat) : list (nat * nat) :=
  scan_loop (S (length string - pos)) string pos.

Definition match_spans (string : str) : list (nat * nat) :=
  spans_from string 0.

(** [re.findall(r'\w+', string)]: the pattern has no group, so the result
    is the list of the matched texts. *)
Definition findall (string : str) : list str :=
  group string <$> match_spans string.

(** *** Maximal runs of word characters, following the glossary *)

Definition word_at (s : str) (i : nat) : bool :=
  match s !! i with
  | Some c => is_word c
  | None => false
  end.

(** [b, e) is a non-empty run of word characters that can be extended
    neither to the left nor to the right. *)
Definition maximal_run (s : str) (b e : nat) : Prop :=
  b < e ∧ (∀ i, b ≤ i < e → word_at s i = true) ∧
  (b = 0 ∨ word_at s (b - 1) = false) ∧ word_at s e = false.

Definition is_maximal_run (s : str) (p : nat * nat) : bool :=
  (p.1 <? p.2) && forallb (word_at s) (seq p.1 (p.2 - p.1)) &&
  ((p.1 =? 0) || negb (word_at s (p.1 - 1))) && negb (word_at s p.2).

(** All spans over the text, by start and then by end. *)
Definition candidate_spans (s : str) : list (nat * nat) :=
  b ← seq 0 (S (length s)); pair b <$> seq 0 (S (length s)).

(** The maximal runs of word characters of the text, in the order they
    occur. *)
Definition maximal_runs (s : str) : list (nat * nat) :=
  filter (λ p, is_maximal_run s p) (candidate_spans s).

End regex.

(** Spans in the order they occur in a text: by start, then by end. *)
Definition span_lt (p q : nat * nat) : Prop :=
  p.1 < q.1 ∨ (p.1 = q.1 ∧ p.2 < q.2).

(** ** Values, objects and the heap *)

Definition loc := nat.

(** Compiled patterns; the notebook compiles only [r'\w+']. *)
Inductive pattern := word_plus.

Inductive value :=
  | VNone
  | VInt (z : Z)
  | VStr (s : str)
  | VRef (l : loc)
  | VPattern (p : pattern)
  | VMatch (string : str) (span : nat * nat).

(** The classes of the notebook. The three cells of chapter 14 each define a
    class [Sentence]; the later two are told apart by a suffix. *)
Inductive class :=
  | C_Sentence
  | C_SentenceIterator
  | C_Sentence_gen
  | C_Sentence_genexp.

(** The suspended frame of a generator object. *)
Inductive frame :=
  | gen_start (self : value)   (* body of the generator function not entered *)
  | gen_loop (it : value)      (* suspended at [yield word] inside the loop *)
  | genexp_loop (it : value)   (* generator expression over the iterator [it] *)
  | gen_done.

Inductive obj :=
  | Instance (cls : class) (attrs : gmap string value)
  | PyList (items : list value)
  | ListIterator (it_seq : option loc) (it_index : nat)
  | StrIterator (it_str : str) (it_index : nat)
  | FindIter (string : str) (pos : option nat)
  | Generator (f : frame).

Abbreviation heap := (gmap loc obj).

Inductive exn :=
  | StopIteration
  | IndexError
  | TypeError
  | AttributeError
  | SystemError.

Inductive outcome (A : Type) :=
  | Ok (a : A)
  | Raise (e : exn).
Arguments Ok {A} a.
Arguments Raise {A} e.

Global Instance exn_eq_dec : EqDecision exn.
Proof. solve_decision. Defined.

(** ** The monad of method calls: a heap is threaded, exceptions propagate *)

Definition M (A : Type) : Type := heap → outcome A * heap.

Definition ret {A} (a : A) : M A := λ h, (Ok a, h).

Definition bind {A B} (m : M A) (k : A → M B) : M B :=
  λ h, match m h with
       | (Ok a, h') => k a h'
       | (Raise e, h') => (Raise e, h')
       end.

Definition raise {A} (e : exn) : M A := λ h, (Raise e, h).

(** [try: m  except e: handler] *)
Definition try_except {A} (m : M A) (e : exn) (handler : M A) : M A :=
  λ h, match m h with
       | (Raise e', h') => if decide (e' = e) then handler h' else (Raise e', h')
       | r => r
       end.

Global Instance M_ret : MRet M := @ret.
Global Instance M_bind : MBind M := λ A B k m, bind m k.

Definition alloc (o : obj) : M loc :=
  λ h, let l := fresh (dom h) in (Ok l, <[l:=o]> h).

(** The object a reference points to. Python has no dangling references; a
    location outside the heap is reported as [SystemError]. *)
Definition deref (l : loc) : M obj :=
  λ h, match h !! l with
       | Some o => (Ok o, h)
       | None => (Raise SystemError, h)
       end.

Definition store (l : loc) (o : obj) : M unit :=
  λ h, (Ok tt, <[l:=o]> h).

(** [x.name] for a data attribute of an instance. *)
Definition getattr (x : value) (name : string) : M value :=
  match x with
  | VRef l =>
      o ← deref l;
      match o with
      | Instance _ attrs =>
          match attrs !! name with
          | Some v => ret v
          | None => raise AttributeError
          end
      | _ => raise AttributeError
      end
  | _ => raise AttributeError
  end.

(** [x.name = v] *)
Definition setattr (x : value) (name : string) (v : value) : M unit :=
  match x with
  | VRef l =>
      o ← deref l;
      match o with
      | Instance cls attrs => store l (Instance cls (<[name:=v]> attrs))
      | _ => raise AttributeError
      end
  | _ => raise AttributeError
  end.

(** [x[i]] on a list: a negative index counts from the end, an index out of
    range raises [IndexError]. *)
Definition getitem (x i : value) : M value :=
  match x, i with
  | VRef l, VInt z =>
      o ← deref l;
      match o with
      | PyList items =>
          let n := Z.of_nat (length items) in
          let k := if (z <? 0)%Z then (z + n)%Z else z in
          if ((0 <=? k) && (k <? n))%Z then
            match items !! Z.to_nat k with
            | Some v => ret v
            | None => raise IndexError
            end
          else raise IndexError
      | _ => raise TypeError
      end
  | _, _ => raise TypeError
  end.

(** [a + b] on integers. *)
Definition add (a b : value) : M value :=
  match a, b with
  | VInt x, VInt y => ret (VInt (x + y))
  | _, _ => raise TypeError
  end.

(** [cls(args)]: a new instance with an empty attribute dictionary is made
    and handed to the class's [__init__]. *)
Definition instantiate (cls : class) (init : value → M unit) : M value :=
  l ← alloc (Instance cls ∅);
  init (VRef l);;
  ret (VRef l).

(** ** The module [re] *)

Section re.
Context `{UDB : !UnicodeDB}.

(** [re.findall(r'\w+', string)]: a new list of the matched texts. *)
Definition re_findall (string : value) : M value :=
  match string with
  | VStr s => l ← alloc (PyList (VStr <$> findall s)); mret (VRef l)
  | _ => raise TypeError
  end.

(** [re.compile(r'\w+')] *)
Definition re_compile_word_plus : M value := mret (VPattern word_plus).

(** [pattern.finditer(string)]: an iterator over the matches, which
    searches on demand from its own position. *)
Definition finditer (p string : value) : M value :=
  match p with
  | VPattern word_plus =>
      match string with
      | VStr s => l ← alloc (FindIter s (Some 0)); mret (VRef l)
      | _ => raise TypeError
      end
  | _ => raise AttributeError
  end.

(** [match.group()] *)
Definition match_group (m : value) : M value :=
  match m with
  | VMatch s span => mret (VStr (group s span))
  | _ => raise AttributeError
  end.

(** ** Built-in iterators *)

(** [iter(x)] for the built-in iterables: a list or a [str] gets a new
    iterator, an iterator is returned as it is. The instances of the
    notebook's classes are dispatched by [iter] below; the loops inside the
    generator bodies only ever iterate over built-in objects. *)
Definition iter_builtin (x : value) : M value :=
  match x with
  | VRef l =>
      o ← deref l;
      match o with
      | PyList _ => it ← alloc (ListIterator (Some l) 0); mret (VRef it)
      | ListIterator _ _ | StrIterator _ _ | FindIter _ _ | Generator _ =>
          mret x
      | Instance _ _ => raise TypeError
      end
  | VStr s => it ← alloc (StrIterator s 0); mret (VRef it)
  | _ => raise TypeError
  end.

(** [next(it)] on a list iterator: once the index is past the end the
    iterator drops its list and stays exhausted. *)
Definition listiter_next (l : loc) (it_seq : option loc) (i : nat)
  : M value :=
  match it_seq with
  | Some lst =>
      o ← deref lst;
      match o with
      | PyList items =>
          match items !! i with
          | Some v => store l (ListIterator (Some lst) (S i));; mret v
          | None => store l (ListIterator None i);; raise StopIteration
          end
      | _ => raise SystemError
      end
  | None => raise StopIteration
  end.

Definition striter_next (l : loc) (s : str) (i : nat) : M value :=
  match s !! i with
  | Some c => store l (StrIterator s (S i));; mret (VStr [c])
  | None => raise StopIteration
  end.

(** [next(it)] on the iterator of [finditer]: search from the position;
    a match moves the position to its end, no match ends the iterator for
    good. *)
Definition finditer_next (l : loc) (s : str) (pos : option nat)
  : M value :=
  match pos with
  | Some p =>
      match search s p with
      | Some (b, e) => store l (FindIter s (Some e));; mret (VMatch s (b, e))
      | None => store l (FindIter s None);; raise StopIteration
      end
  | None => raise StopIteration
  end.

Definition next_builtin (x : value) : M value :=
  match x with
  | VRef l =>
      o ← deref l;
      match o with
      | ListIterator it_seq i => listiter_next l it_seq i
      | StrIterator s i => striter_next l s i
      | FindIter s pos => finditer_next l s pos
      | _ => raise TypeError
      end
  | _ => raise TypeError
  end.
End re.

(** ** Chapter 14, first cell: [Sentence] with a hand-written iterator *)

Module SentenceIterator.
(** [self.words = words; self._index = 0] *)
Definition __init__ (self words : value) : M unit :=
  setattr self "words" words;;
  setattr self "_index" (VInt 0).

(** The element at [_index] is read under [try]; an [IndexError] becomes
    [StopIteration]; otherwise [_index] is incremented and the word is
    returned. *)
Definition __next__ (self : value) : M value :=
  word ← try_except
           (words ← getattr self "words";
            index ← getattr self "_index";
            getitem words index)
           IndexError
           (raise StopIteration);
  (index ← getattr self "_index";
   index' ← add index (VInt 1);
   setattr self "_index" index');;
  mret word.

(** Inherited from [abc.Iterator]: [return self]. *)
Definition __iter__ (self : value) : M value := mret self.
End SentenceIterator.

Module Sentence.
Section methods.
Context `{UDB : !UnicodeDB}.

(** [self.sentence = sentence; self.words = re.findall(r'\w+', sentence)] *)
Definition __init__ (self sentence : value) : M unit :=
  setattr self "sentence" sentence;;
  words ← re_findall sentence;
  setattr self "words" words.

(** [return SentenceIterator(self.words)] *)
Definition __iter__ (self : value) : M value :=
  words ← getattr self "words";
  instantiate C_SentenceIterator
    (λ it, SentenceIterator.__init__ it words).
End methods.
End Sentence.

(** ** Second cell: [__iter__] is a generator function *)

Module Sentence_gen.
Section methods.
Context `{UDB : !UnicodeDB}.

(** The same [__init__] as in the first cell. *)
Definition __init__ (self sentence : value) : M unit :=
  setattr self "sentence" sentence;;
  words ← re_findall sentence;
  setattr self "words" words.

(** Calling a generator function runs none of its body: it returns a
    generator object holding the frame. *)
Definition __iter__ (self : value) : M value :=
  g ← alloc (Generator (gen_start self)); mret (VRef g).
End methods.
End Sentence_gen.

(** ** Third cell: [__iter__] returns a generator expression *)

Module Sentence_genexp.
Section methods.
Context `{UDB : !UnicodeDB}.

(** [self.re_word = re.compile(r'\w+'); self.sentence = sentence] *)
Definition __init__ (self sentence : value) : M unit :=
  re_word ← re_compile_word_plus;
  setattr self "re_word" re_word;;
  setattr self "sentence" sentence.

(** The outermost iterable of a generator expression is evaluated, and
    [iter] applied to it, when the expression is evaluated. *)
Definition __iter__ (self : value) : M value :=
  re_word ← getattr self "re_word";
  sentence ← getattr self "sentence";
  matches ← finditer re_word sentence;
  it ← iter_builtin matches;
  g ← alloc (Generator (genexp_loop it));
  mret (VRef g).
End methods.
End Sentence_genexp.

(** ** Generators *)

Section generators.
Context `{UDB : !UnicodeDB}.

(** One round of [for word in it: yield word] followed by [return]: the
    generator [g] is left suspended at the [yield], or finished. *)
Definition gen_loop_round (g : loc) (it : value) : M value :=
  λ h, match next_builtin it h with
       | (Ok word, h') => (Ok word, <[g:=Generator (gen_loop it)]> h')
       | (Raise e, h') => (Raise e, <[g:=Generator gen_done]> h')
       end.

(** One round of [(match.group() for match in it)]. *)
Definition genexp_loop_round (g : loc) (it : value) : M value :=
  λ h, match (m ← next_builtin it; match_group m) h with
       | (Ok word, h') => (Ok word, <[g:=Generator (genexp_loop it)]> h')
       | (Raise e, h') => (Raise e, <[g:=Generator gen_done]> h')
       end.

(** [next(g)] resumes the frame of the generator; an exception that leaves
    the body, the [StopIteration] of its end included, finishes it. *)
Definition gen_next (g : loc) (f : frame) : M value :=
  match f with
  | gen_start self =>
      λ h, match (words ← getattr self "words"; iter_builtin words) h with
           | (Ok it, h') => gen_loop_round g it h'
           | (Raise e, h') => (Raise e, <[g:=Generator gen_done]> h')
           end
  | gen_loop it => gen_loop_round g it
  | genexp_loop it => genexp_loop_round g it
  | gen_done => raise StopIteration
  end.

(** ** The built-in functions [iter] and [next] *)

Definition iter (x : value) : M value :=
  match x with
  | VRef l =>
      o ← deref l;
      match o with
      | Instance C_Sentence _ => Sentence.__iter__ x
      | Instance C_SentenceIterator _ => SentenceIterator.__iter__ x
      | Instance C_Sentence_gen _ => Sentence_gen.__iter__ x
      | Instance C_Sentence_genexp _ => Sentence_genexp.__iter__ x
      | _ => iter_builtin x
      end
  | _ => iter_builtin x
  end.

Definition next (x : value) : M value :=
  match x with
  | VRef l =>
      o ← deref l;
      match o with
      | Instance C_SentenceIterator _ => SentenceIterator.__next__ x
      | Instance _ _ => raise TypeError
      | Generator f => gen_next l f
      | _ => next_builtin x
      end
  | _ => raise TypeError
  end.
End generators.

(** ** Clients of the iteration protocol *)

Inductive variant :=
  | hand_written
  | generator_function
  | generator_expression.

(** What a client does with one sentence: it asks for a traversal
    ([iter(sentence)]) or advances the [j]-th cursor it got ([next]). *)
Inductive cmd :=
  | Begin
  | Advance (j : nat).

(** What the client sees. *)
Inductive event :=
  | Began (r : outcome unit)
  | Advanced (r : outcome value)
  | NoSuchCursor.

Section clients.
Context `{UDB : !UnicodeDB}.

(** [Sentence(text)] in each of the three cells. *)
Definition Sentence_new (v : variant) (text : value) : M value :=
  match v with
  | hand_written =>
      instantiate C_Sentence (λ self, Sentence.__init__ self text)
  | generator_function =>
      instantiate C_Sentence_gen (λ self, Sentence_gen.__init__ self text)
  | generator_expression =>
      instantiate C_Sentence_genexp
        (λ self, Sentence_genexp.__init__ self text)
  end.

(** One command of a client on the sentence [s]: the client keeps the
    cursors it was given and sees the outcome of each call. *)
Definition perform (s : value) (c : cmd) (cursors : list value) (h : heap)
  : event * list value * heap :=
  match c with
  | Begin =>
      match iter s h with
      | (Ok it, h') => (Began (Ok tt), cursors ++ [it], h')
      | (Raise e, h') => (Began (Raise e), cursors, h')
      end
  | Advance j =>
      match cursors !! j with
      | Some it => let '(r, h') := next it h in (Advanced r, cursors, h')
      | None => (NoSuchCursor, cursors, h)
      end
  end.

(** A client: a list of commands, performed in order. *)
Fixpoint run (s : value) (script : list cmd) (cursors : list value)
  (h : heap) : list event * list value * heap :=
  match script with
  | [] => ([], cursors, h)
  | c :: script' =>
      let '(ev, cursors', h') := perform s c cursors h in
      let '(evs, cursors'', h'') := run s script' cursors' h' in
      (ev :: evs, cursors'', h'')
  end.

(** [k] calls of [next] on one cursor. *)
Fixpoint advance_n (k : nat) (it : value) (h : heap)
  : list (outcome value) * heap :=
  match k with
  | 0 => ([], h)
  | S k' =>
      let '(r, h') := next it h in
      let '(rs, h'') := advance_n k' it h' in
      (r :: rs, h'')
  end.

(** The loop [for word in it]: the words until [StopIteration]; [None]
    when [fuel] calls of [next] did not reach the end. *)
Fixpoint drain (fuel : nat) (it : value) (h : heap)
  : option (outcome (list value) * heap) :=
  match fuel with
  | 0 => None
  | S fuel' =>
      match next it h with
      | (Ok word, h') =>
          match drain fuel' it h' with
          | Some (Ok words, h'') => Some (Ok (word :: words), h'')
          | r => r
          end
      | (Raise StopIteration, h') => Some (Ok [], h')
      | (Raise e, h') => Some (Raise e, h')
      end
  end.

(** One full traversal, [for word in s]. *)
Definition traverse (fuel : nat) (s : value) (h : heap)
  : option (outcome (list value) * heap) :=
  match iter s h with
  | (Ok it, h') => drain fuel it h'
  | (Raise e, h') => Some (Raise e, h')
  end.
End clients.

(** ** The cursor of the specification *)

Inductive cursor_state :=
  | Active (position : nat)
  | Exhausted.

(** The state machine of "advance" over the tokens of a sequence, in the
    words of the specification: [Active i] yields token [i] and becomes
    [Active (i + 1)] while [i] is below the token count; [Active] at the
    token count signals the end and becomes [Exhausted]; [Exhausted] signals
    the end for ever. *)
Inductive spec_step (tokens : list str)
  : cursor_state → outcome value → cursor_state → Prop :=
  | step_within i t :
      tokens !! i = Some t →
      spec_step tokens (Active i) (Ok (VStr t)) (Active (S i))
  | step_detect :
      spec_step tokens (Active (length tokens)) (Raise StopIteration) Exhausted
  | step_exhausted :
      spec_step tokens Exhausted (Raise StopIteration) Exhausted.

(** The [i]-th result of a cursor over the tokens: the token, or the
    end-of-sequence signal from the token count on. *)
Definition nth_result (tokens : list str) (i : nat) : outcome value :=
  match tokens !! i with
  | Some t => Ok (VStr t)
  | None => Raise StopIteration
  end.

(** The specification's view of a client: every traversal request gives a
    cursor of its own at position zero, and an advance concerns the
    position of its cursor only. *)
Fixpoint model_run (tokens : list str) (script : list cmd)
  (positions : list nat) : list event :=
  match script with
  | [] => []
  | Begin :: script' =>
      Began (Ok tt) :: model_run tokens script' (positions ++ [0])
  | Advance j :: script' =>
      match positions !! j with
      | Some i =>
          Advanced (nth_result tokens i) ::
          model_run tokens script'
            (if decide (i < length tokens) then <[j:=S i]> positions
             else positions)
      | None => NoSuchCursor :: model_run tokens script' positions
      end
  end.

(** ** Representation of a sentence and of its cursors in the heap *)

(** The heaps [h] and [h'] hold the same objects at the locations of [X]. *)
Definition agree_on (X : gset loc) (h h' : heap) : Prop :=
  ∀ l, l ∈ X → h' !! l = h !! l.

(** A cursor of a client: the reference it holds, how many tokens the cursor
    has produced, and the locations only this cursor uses. *)
Record cursor := Cursor {
  handle : value;
  position : nat;
  footprint : gset loc
}.

Section representation.
Context `{UDB : !UnicodeDB}.
Variables (v : variant) (text : str) (ls w : loc).

(** The sentence object at [ls] as its [__init__] leaves it; for the first
    two cells [w] is the list of the words (the third cell keeps no list,
    and [w] is [ls] there). *)
Definition sentence_rep (h : heap) : Prop :=
  match v with
  | hand_written =>
      ∃ attrs, h !! ls = Some (Instance C_Sentence attrs) ∧
        attrs !! "sentence" = Some (VStr text) ∧
        attrs !! "words" = Some (VRef w) ∧
        h !! w = Some (PyList (VStr <$> findall text))
  | generator_function =>
      ∃ attrs, h !! ls = Some (Instance C_Sentence_gen attrs) ∧
        attrs !! "sentence" = Some (VStr text) ∧
        attrs !! "words" = Some (VRef w) ∧
        h !! w = Some (PyList (VStr <$> findall text))
  | generator_expression =>
      ∃ attrs, h !! ls = Some (Instance C_Sentence_genexp attrs) ∧
        attrs !! "sentence" = Some (VStr text) ∧
        attrs !! "re_word" = Some (VPattern word_plus) ∧
        w = ls
  end.

(** The cursor [c] has produced the first [i] tokens. *)
Definition cursor_rep (h : heap) (c : value) (i : nat) (fp : gset loc)
  : Prop :=
  i ≤ length (findall text) ∧
  match v with
  | hand_written =>
      ∃ l attrs, c = VRef l ∧ fp = {[l]} ∧
        h !! l = Some (Instance C_SentenceIterator attrs) ∧
        attrs !! "words" = Some (VRef w) ∧
        attrs !! "_index" = Some (VInt (Z.of_nat i))
  | generator_function =>
      ∃ g, c = VRef g ∧
        ((h !! g = Some (Generator (gen_start (VRef ls))) ∧
          i = 0 ∧ fp = {[g]}) ∨
         (∃ it, h !! g = Some (Generator (gen_loop (VRef it))) ∧
            h !! it = Some (ListIterator (Some w) i) ∧ fp = {[g; it]}) ∨
         (h !! g = Some (Generator gen_done) ∧
          i = length (findall text) ∧ fp = {[g]}))
  | generator_expression =>
      ∃ g, c = VRef g ∧
        ((∃ it p, h !! g = Some (Generator (genexp_loop (VRef it))) ∧
            h !! it = Some (FindIter text (Some p)) ∧
            spans_from text p = drop i (match_spans text) ∧
            fp = {[g; it]}) ∨
         (h !! g = Some (Generator gen_done) ∧
          i = length (findall text) ∧ fp = {[g]}))
  end.

(** The state of a client: the sentence, and cursors with disjoint
    footprints. *)
Definition client_inv (h : heap) (cs : list cursor) : Prop :=
  sentence_rep h ∧
  (∀ k c, cs !! k = Some c →
     cursor_rep h (handle c) (position c) (footprint c) ∧
     footprint c ⊆ dom h ∧ (ls ∉ footprint c) ∧ (w ∉ footprint c)) ∧
  (∀ j k c d, j ≠ k → cs !! j = Some c → cs !! k = Some d →
     footprint c ## footprint d).
End representation.


(** How the object of a hand-written cursor stands for a state of the
    specification's machine, over [n] tokens kept in the list at [w]: the
    state [Active i] is [_index = i]; [Exhausted] is [_index = n], the index
    at which the end was detected. *)
Definition cursor_abs (w : loc) (n : nat) (o : obj) (a : cursor_state)
  : Prop :=
  ∃ attrs i, o = Instance C_SentenceIterator attrs ∧
    attrs !! "words" = Some (VRef w) ∧
    attrs !! "_index" = Some (VInt (Z.of_nat i)) ∧
    match a with
    | Active k => k = i ∧ i ≤ n
    | Exhausted => i = n
    end.

(** What a client sees when it builds the sentence of a text in the heap
    [h0] and runs a script on it. *)
Definition observe `{UDB : !UnicodeDB} (v : variant) (text : str)
  (script : list cmd) (h0 : heap) : outcome (list event) :=
  match Sentence_new v (VStr text) h0 with
  | (Ok s, h1) => Ok (run s script [] h1).1.1
  | (Raise e, _) => Raise e
  end.

(** The sentence the notebook iterates over, and the words it prints. *)
Definition demo_sentence : string :=
  "Return a list of all non-overlapping matches in the string.".

Definition demo_tokens : list string :=
  ["Return"; "a"; "list"; "of"; "all"; "non"; "overlapping"; "matches";
   "in"; "the"; "string"].

(** An instance of the Unicode table for the examples: no code point
    outside ASCII counts as a word character. *)
Definition ascii_only : UnicodeDB := λ _, false.

(** A client of the sentence ["ab cd"]: two cursors, the first one advanced
    past the end. *)
Definition example_text : str := str_of "ab cd".

Definition example_script : list cmd :=
  [Begin; Advance 0; Begin; Advance 0; Advance 0; Advance 1].

Definition example_start : outcome value * heap :=
  Sentence_new (UDB:=ascii_only) hand_written (VStr example_text) ∅.

Definition example_state : list event * list value * heap :=
  run (UDB:=ascii_only) (VRef 0) example_script [] example_start.2.

(** ** Chapter 21: descriptors named by a metaclass *)

Module Ch21.

(** The exceptions this chapter's code can end in. *)
Inductive exn :=
  | AttributeError
  | TypeError
  | RecursionError.

Inductive outcome (A : Type) :=
  | Ok (a : A)
  | Raise (e : exn).
Arguments Ok {A} a.
Arguments Raise {A} e.

(** What a class body binds to a name: an instance of [Field] (a reference
    to the descriptor object); a function written with [def]; or a plain
    object that is no descriptor ([None], an [int], a [str], or with [VRef]
    a reference to a [dict]). *)
Inductive member :=
  | MField (f : loc)
  | MOther (v : value)
  | MFunction.

(** The descriptor objects: the only attribute a [Field] ever gets is
    [__name__]; [None] when it has not been assigned. *)
Abbreviation field_heap := (gmap loc (option string)).

(** The [dict] objects, with [str] keys. They are shared and mutable, and
    [VRef d] is a reference to the one at [d]; a [VRef] to no [dict] stands
    for an object of another type. *)
Abbreviation dict_heap := (gmap loc (gmap string value)).

(** An [OrderedDict] with attribute names as keys: the items in the order
    the keys were first inserted. *)
Abbreviation odict := (list (string * member)).


Fixpoint od_get (k : string) (d : odict) : option member :=
  match d with
  | [] => None
  | (k', m) :: d' => if decide (k' = k) then Some m else od_get k d'
  end.

(** An instance of a class made by the metaclass: its [__dict__]. It is
    empty when [object.__new__] returns it; [_value_dict] is in it only
    once something has assigned it. *)
Abbreviation instance := (gmap string value).

(** What reading an attribute can give. *)
Inductive attr_value :=
  | Plain (v : value)
  | Descriptor (f : loc)                (* the [Field] object itself *)
  | NameList (names : list string)      (* the list made by the metaclass *)
  | BoundMethod (name : string).        (* a function of the class, bound *)

(** A class as its metaclass leaves it: the name it was created under, the
    namespace it was created from, and the list that
    [DesNameMeta.__init__] assigns to the class attribute [_field_names]
    ([None] when the metaclass assigns none). *)
Record pyclass := Pyclass {
  cls_name : string;
  namespace : odict;
  _field_names : option (list string)
}.

(** The attributes in the [__dict__] of a class. *)
Inductive class_attr :=
  | Attr (m : member)
  | HookList (names : list string).

(** The [__dict__] of the class at a name: [cls._field_names = field_names]
    replaces whatever the body bound to [_field_names]. *)
Definition class_lookup (cls : pyclass) (attr : string) : option class_attr :=
  match _field_names cls with
  | Some names =>
      if decide (attr = "_field_names") then Some (HookList names)
      else Attr <$> od_get attr (namespace cls)
  | None => Attr <$> od_get attr (namespace cls)
  end.

(** Names that begin with two underscores are the interpreter's own: the
    model reads and writes only the other attributes. *)
Definition ordinary (attr : string) : bool := negb (String.prefix "__" attr).

(** The special methods that the classes of the notebook define. *)
Definition special_methods : list string := ["__init__"; "__iter__"].

(** The namespaces the model covers. A name with two leading underscores is
    one of the strings [__module__], [__qualname__] and [__doc__], or one
    of the functions [__init__] and [__iter__]: so a class has no
    [__slots__] and no method that takes over attribute access. Other names
    are bound to anything. *)
Definition key_ok (km : string * member) : bool :=
  if ordinary km.1 then true
  else match km.2 with
       | MFunction => bool_decide (km.1 ∈ special_methods)
       | MOther (VStr _) =>
           bool_decide (km.1 ∈ ["__module__"; "__qualname__"; "__doc__"])
       | _ => false
       end.


(** [object.__getattribute__(instance, attr)]: a data descriptor of the
    class comes first (the only ones are the instances of [Field], and
    [descr_get] calls [__get__] on one), then the [__dict__] of the
    instance, then what else the class has; a function is bound. *)
Definition object_getattribute (cls : pyclass) (inst : instance)
  (attr : string) (descr_get : loc → outcome attr_value)
  : outcome attr_value :=
  match class_lookup cls attr with
  | Some (Attr (MField f)) => descr_get f
  | found =>
      match inst !! attr with
      | Some v => Ok (Plain v)
      | None =>
          match found with
          | Some (Attr (MOther v)) => Ok (Plain v)
          | Some (Attr MFunction) => Ok (BoundMethod attr)
          | Some (HookList names) => Ok (NameList names)
          | _ => Raise AttributeError
          end
      end
  end.

Module Field.
(** [self.__name__] on a [Field]: the class [Field] has no such attribute,
    so it is there only after an assignment. *)
Definition __name__ (fields : field_heap) (self : loc) : option string :=
  match fields !! self with
  | Some (Some name) => Some name
  | _ => None
  end.

(** [instance._value_dict], as [__get__] and [__set__] evaluate it. When
    the class binds [_value_dict] itself to a [Field], that descriptor's
    [__get__] runs: it reads its [__name__] and then evaluates
    [instance._value_dict] again, which never ends but in a
    [RecursionError]. *)
Definition value_dict (cls : pyclass) (fields : field_heap)
  (inst : instance) : outcome attr_value :=
  object_getattribute cls inst "_value_dict"
    (λ f, match __name__ fields f with
          | Some _ => Raise RecursionError
          | None => Raise AttributeError
          end).

(** [__get__(self, instance, cls)]: on the class the descriptor itself; on
    an instance [instance._value_dict.get(self.__name__)]. Only a [dict]
    has [get]. *)
Definition __get__ (cls : pyclass) (fields : field_heap) (dicts : dict_heap)
  (self : loc) (inst : option instance) : outcome attr_value :=
  match inst with
  | None => Ok (Descriptor self)
  | Some i =>
      match __name__ fields self with
      | None => Raise AttributeError
      | Some name =>
          match value_dict cls fields i with
          | Raise e => Raise e
          | Ok (Plain (VRef d)) =>
              match dicts !! d with
              | Some items => Ok (Plain (default VNone (items !! name)))
              | None => Raise AttributeError
              end
          | Ok _ => Raise AttributeError
          end
      end
  end.

(** [__set__(self, instance, val)]:
    [instance._value_dict[self.__name__] = val]. The [dict] is updated in
    place; no other object takes an item under a [str]. *)
Definition __set__ (cls : pyclass) (fields : field_heap) (dicts : dict_heap)
  (self : loc) (inst : instance) (val : value) : outcome unit * dict_heap :=
  match __name__ fields self with
  | None => (Raise AttributeError, dicts)
  | Some name =>
      match value_dict cls fields inst with
      | Raise e => (Raise e, dicts)
      | Ok (Plain (VRef d)) =>
          match dicts !! d with
          | Some items => (Ok tt, <[d:=<[name:=val]> items]> dicts)
          | None => (Raise TypeError, dicts)
          end
      | Ok _ => (Raise TypeError, dicts)
      end
  end.
End Field.


Module DesNameMeta.

(** The loop of [__init__] over [dic.items()]: a [Field] gets the name it
    is bound to, and the name is appended to [field_names]. *)
Fixpoint init_loop (items : odict) (field_names : list string)
  (fields : field_heap) : list string * field_heap :=
  match items with
  | [] => (field_names, fields)
  | (name, val) :: items' =>
      match val with
      | MField f =>
          init_loop items' (field_names ++ [name]) (<[f:=Some name]> fields)
      | _ => init_loop items' field_names fields
      end
  end.

(** [__init__(cls, name, bases, dic)]: what is assigned to
    [cls._field_names], and the descriptors after the loop. *)
Definition __init__ (dic : odict) (fields : field_heap)
  : list string * field_heap :=
  init_loop dic [] fields.
End DesNameMeta.



(** [inst.attr]. Outside the model ([None]): a name of the interpreter's
    own, and a class whose namespace is not covered. *)
Definition instance_get (cls : pyclass) (fields : field_heap)
  (dicts : dict_heap) (inst : instance) (attr : string)
  : option (outcome attr_value) :=
  if ordinary attr && forallb key_ok (namespace cls) then
    Some (object_getattribute cls inst attr
            (λ f, Field.__get__ cls fields dicts f (Some inst)))
  else None.

(** [inst.attr = val], by [object.__setattr__]: a data descriptor of the
    class is called, anything else goes to the [__dict__] of the
    instance. *)
Definition instance_set (cls : pyclass) (fields : field_heap)
  (dicts : dict_heap) (inst : instance) (attr : string) (val : value)
  : option (outcome unit * instance * dict_heap) :=
  if ordinary attr && forallb key_ok (namespace cls) then
    Some match class_lookup cls attr with
         | Some (Attr (MField f)) =>
             let '(r, dicts') := Field.__set__ cls fields dicts f inst val in
             (r, inst, dicts')
         | _ => (Ok tt, <[attr:=val]> inst, dicts)
         end
  else None.




Module NewDesNameMeta.


End NewDesNameMeta.

Module SomeClass.
(** [__init__(self)]: [self._value_dict = {}], a new [dict] assigned as any
    attribute is. *)
Definition __init__ (cls : pyclass) (fields : field_heap) (dicts : dict_heap)
  (self : instance) : option (outcome unit * instance * dict_heap) :=
  let d := fresh (dom dicts) in
  instance_set cls fields (<[d:=∅]> dicts) self "_value_dict" (VRef d).


(** The loop of [__iter__] drained: [yield getattr(self, field)] for each
    name. *)
Fixpoint yield_fields (cls : pyclass) (fields : field_heap)
  (dicts : dict_heap) (self : instance) (names : list string)
  : option (outcome (list attr_value)) :=
  match names with
  | [] => Some (Ok [])
  | name :: names' =>
      match instance_get cls fields dicts self name with
      | Some (Ok v) =>
          match yield_fields cls fields dicts self names' with
          | Some (Ok vs) => Some (Ok (v :: vs))
          | r => r
          end
      | Some (Raise e) => Some (Raise e)
      | None => None
      end
  end.

(** [list(self)], which drains the generator [__iter__]:
    [for field in self._field_names: yield getattr(self, field)]. When
    [self._field_names] is not the list of the metaclass (an attribute of
    the instance hides it), the loop is outside the model. *)
Definition __iter__ (cls : pyclass) (fields : field_heap) (dicts : dict_heap)
  (self : instance) : option (outcome (list attr_value)) :=
  match instance_get cls fields dicts self "_field_names" with
  | Some (Ok (NameList names)) => yield_fields cls fields dicts self names
  | Some (Ok _) => None
  | Some (Raise e) => Some (Raise e)
  | None => None
  end.
End SomeClass.










End Ch21.

(** ** Further code of the notebooks *)

(** [x.append(v)] on a list. *)
Definition list_append (x v : value) : M unit :=
  match x with
  | VRef l =>
      o ← deref l;
      match o with
      | PyList items => store l (PyList (items ++ [v]))
      | _ => raise AttributeError
      end
  | _ => raise AttributeError
  end.

(** ** The generator function [my_itertools_chain] *)

(** The frame of a generator made by [my_itertools_chain]. *)
Inductive chain_frame :=
  | chain_start (iterators : list value)        (* body not entered *)
  | chain_in (it : value) (rest : list value)   (* inside [yield from], delegating to [it] *)
  | chain_done.

Section chain.
Context `{UDB : !UnicodeDB}.

(** The loop [for iterator in iterators: yield from iterator] from the start
    of a round: [yield from] takes [iter(iterator)] and delegates to it; the
    [StopIteration] of the delegate ends the round, any other exception
    leaves the generator, which is then finished. *)
Fixpoint chain_loop (iterators : list value) (h : heap)
  : outcome value * chain_frame * heap :=
  match iterators with
  | [] => (Raise StopIteration, chain_done, h)
  | x :: rest =>
      match iter x h with
      | (Ok it, h') =>
          match next it h' with
          | (Ok v, h'') => (Ok v, chain_in it rest, h'')
          | (Raise StopIteration, h'') => chain_loop rest h''
          | (Raise e, h'') => (Raise e, chain_done, h'')
          end
      | (Raise e, h') => (Raise e, chain_done, h')
      end
  end.

(** [next(g)] on the generator. *)
Definition chain_next (f : chain_frame) (h : heap)
  : outcome value * chain_frame * heap :=
  match f with
  | chain_start iterators => chain_loop iterators h
  | chain_in it rest =>
      match next it h with
      | (Ok v, h') => (Ok v, chain_in it rest, h')
      | (Raise StopIteration, h') => chain_loop rest h'
      | (Raise e, h') => (Raise e, chain_done, h')
      end
  | chain_done => (Raise StopIteration, chain_done, h)
  end.

(** Calling the generator function runs none of its body. *)
Definition my_itertools_chain (iterators : list value) : chain_frame :=
  chain_start iterators.

(** [k] calls of [next] on the generator. *)
Fixpoint chain_advance_n (k : nat) (f : chain_frame) (h : heap)
  : list (outcome value) * chain_frame * heap :=
  match k with
  | 0 => ([], f, h)
  | S k' =>
      let '(r, f', h') := chain_next f h in
      let '(rs, f'', h'') := chain_advance_n k' f' h' in
      (r :: rs, f'', h'')
  end.
End chain.

(** The arguments [xs] are references to the lists [itemss]. *)
Definition list_args (h : heap) (xs : list value)
  (itemss : list (list value)) : Prop :=
  Forall2 (λ x items, ∃ w, x = VRef w ∧ h !! w = Some (PyList items))
    xs itemss.

(** Every list of [h] is the same list in [h']. *)
Definition lists_kept (h h' : heap) : Prop :=
  ∀ l items, h !! l = Some (PyList items) → h' !! l = Some (PyList items).

(** The generator will still produce [out] from lists and then go on with
    the arguments [tl]. *)
Definition chain_rep (tl : list value) (h : heap) (f : chain_frame)
  (out : list value) : Prop :=
  match f with
  | chain_start xs =>
      ∃ ys itemss, xs = ys ++ tl ∧ list_args h ys itemss ∧
        out = concat itemss
  | chain_in it xs =>
      ∃ l w items i ys itemss,
        it = VRef l ∧ h !! l = Some (ListIterator (Some w) i) ∧
        h !! w = Some (PyList items) ∧
        xs = ys ++ tl ∧ list_args h ys itemss ∧
        out = drop i items ++ concat itemss
  | chain_done => False
  end.

(** ** [iter(rand, 5)] *)

Section dice.
(** The results of the successive calls [random.randint(1, 6)]; the state of
    the random generator is the number of calls made. *)
Variable randint_1_6 : nat → Z.

(** [rand()]: [return random.randint(1, 6)]. *)
Definition rand (calls : nat) : Z * nat := (randint_1_6 calls, S calls).

(** [next] on [iter(rand, sentinel)]: the callable is called; the sentinel
    ends the iterator, which then never calls again. *)
Definition callable_next (sentinel : Z) (st : bool * nat)
  : outcome Z * (bool * nat) :=
  let '(live, calls) := st in
  if live then
    let '(v, calls') := rand calls in
    if decide (v = sentinel) then (Raise StopIteration, (false, calls'))
    else (Ok v, (true, calls'))
  else (Raise StopIteration, (false, calls)).

(** [list(iter(rand, sentinel))], started after [calls] calls. *)
Fixpoint callable_list (fuel : nat) (sentinel : Z) (st : bool * nat)
  : option (outcome (list Z) * (bool * nat)) :=
  match fuel with
  | 0 => None
  | S fuel' =>
      match callable_next sentinel st with
      | (Ok v, st') =>
          match callable_list fuel' sentinel st' with
          | Some (Ok vs, st'') => Some (Ok (v :: vs), st'')
          | r => r
          end
      | (Raise StopIteration, st') => Some (Ok [], st')
      | (Raise e, st') => Some (Raise e, st')
      end
  end.

End dice.

(** The example client on each of the three cells. *)
Definition example_start_of (v : variant) : outcome value * heap :=
  Sentence_new (UDB:=ascii_only) v (VStr example_text) ∅.

Definition example_state_of (v : variant) : list event * list value * heap :=
  run (UDB:=ascii_only) (VRef 0) example_script [] (example_start_of v).2.

(** The lists of the notebook's call [my_itertools_chain([1, 2], [3, 4, 5])]. *)
Definition chain_heap : heap :=
  {[0 := PyList [VInt 1; VInt 2]; 1 := PyList [VInt 3; VInt 4; VInt 5]]}.

(** A sequence of rolls for the examples: 3, 6, 1, 5, and 5 from then on. *)
Definition example_rolls (k : nat) : Z :=
  default 5%Z ([3; 6; 1; 5]%Z !! k).

(** * Proofs *)

Set Warnings "-clear-no-such-hyp".
(** * Facts about the pattern [\w+] *)

Section regex_facts.
Context `{UDB : !UnicodeDB}.

Lemma word_at_drop (s : str) pos i :
  word_at (drop pos s) i = word_at s (pos + i).
Proof. unfold word_at. by rewrite lookup_drop. Qed.

Lemma word_at_lt (s : str) i : word_at s i = true → i < length s.
Proof.
  unfold word_at. destruct (s !! i) eqn:E; [|done].
  intros _. by eapply lookup_lt_Some.
Qed.

Lemma match_word_plus_within (s : str) i :
  i < match_word_plus s → word_at s i = true.
Proof.
  revert i. induction s as [|c s IH]; simpl; [lia|].
  destruct (is_word c) eqn:E; [|lia].
  intros [|i] Hi; [by unfold word_at; simpl|]. apply IH. lia.
Qed.

Lemma match_word_plus_stop (s : str) :
  word_at s (match_word_plus s) = false.
Proof.
  induction s as [|c s IH]; simpl; [done|].
  destruct (is_word c) eqn:E; [done|]. by unfold word_at; simpl.
Qed.

Lemma search_from_Some (rest : str) pos b e :
  search_from rest pos = Some (b, e) →
  pos ≤ b < e ∧
  (∀ i, pos ≤ i < b → word_at rest (i - pos) = false) ∧
  (∀ i, b ≤ i < e → word_at rest (i - pos) = true) ∧
  word_at rest (e - pos) = false.
Proof.
  revert pos. induction rest as [|c rest IH]; intros pos; simpl; [done|].
  destruct (is_word c) eqn:E.
  - intros [= <- <-]. split_and!; [lia|lia|lia| |].
    + intros i Hi. destruct (i - pos) as [|k] eqn:Ek.
      * by unfold word_at; simpl.
      * change (word_at rest k = true).
        apply match_word_plus_within. lia.
    + replace (pos + S (match_word_plus rest) - pos)
        with (S (match_word_plus rest)) by lia.
      apply match_word_plus_stop.
  - intros Hs. apply IH in Hs as (? & Hskip & Hin & Hend).
    split_and!; [lia|lia| | |].
    + intros i Hi. destruct (decide (i = pos)) as [->|].
      * rewrite Nat.sub_diag. by unfold word_at; simpl.
      * replace (i - pos) with (S (i - S pos)) by lia.
        apply Hskip. lia.
    + intros i Hi. replace (i - pos) with (S (i - S pos)) by lia.
      apply Hin. lia.
    + replace (e - pos) with (S (e - S pos)) by lia. apply Hend.
Qed.

Lemma search_from_None (rest : str) pos i :
  search_from rest pos = None → word_at rest i = false.
Proof.
  revert pos i. induction rest as [|c rest IH]; intros pos i; simpl.
  - intros _. unfold word_at. by rewrite lookup_nil.
  - destruct (is_word c) eqn:E; [done|]. intros Hs.
    destruct i as [|i]; [by unfold word_at; simpl|]. by eapply IH.
Qed.

Lemma search_Some (s : str) pos b e :
  search s pos = Some (b, e) →
  pos ≤ b < e ∧
  (∀ i, pos ≤ i < b → word_at s i = false) ∧
  (∀ i, b ≤ i < e → word_at s i = true) ∧
  word_at s e = false.
Proof.
  unfold search. intros Hs.
  apply search_from_Some in Hs as (? & Hskip & Hin & Hend).
  split_and!; [lia|lia| | |].
  - intros i Hi. rewrite <-(Hskip i Hi), word_at_drop. f_equal. lia.
  - intros i Hi. rewrite <-(Hin i Hi), word_at_drop. f_equal. lia.
  - rewrite <-Hend, word_at_drop. f_equal. lia.
Qed.

Lemma search_None (s : str) pos i :
  search s pos = None → pos ≤ i → word_at s i = false.
Proof.
  unfold search. intros Hs Hi.
  replace i with (pos + (i - pos)) by lia. rewrite <-word_at_drop.
  by eapply search_from_None.
Qed.

Lemma search_bound (s : str) pos b e :
  search s pos = Some (b, e) → e ≤ length s.
Proof.
  intros (? & _ & Hin & _)%search_Some.
  assert (e - 1 < length s); [|lia]. apply word_at_lt, Hin. lia.
Qed.
End regex_facts.

Section sorted_spans.
Lemma span_lt_asym p q : span_lt p q → span_lt q p → p = q.
Proof. unfold span_lt. lia. Qed.

Lemma StronglySorted_span_lt_NoDup l : StronglySorted span_lt l → NoDup l.
Proof.
  induction 1 as [|p l Hl IH Hp]; constructor; [|done].
  intros Hin. rewrite Forall_forall in Hp.
  specialize (Hp _ Hin). unfold span_lt in Hp. lia.
Qed.

Lemma StronglySorted_filter {A} (R : relation A) (P : A → Prop)
    `{!∀ x, Decision (P x)} l :
  StronglySorted R l → StronglySorted R (filter P l).
Proof.
  induction 1 as [|x l Hl IH Hx]; [constructor|].
  rewrite filter_cons. case_decide; [|done].
  constructor; [done|]. rewrite Forall_forall in Hx |- *.
  intros y [_ Hy]%list_elem_of_filter. by apply Hx.
Qed.

Lemma StronglySorted_row b start len :
  StronglySorted span_lt (pair b <$> seq start len).
Proof.
  revert start. induction len as [|len IH]; intros start; simpl;
    constructor; [done|].
  rewrite Forall_forall. intros q (e & -> & He%elem_of_seq)%list_elem_of_fmap.
  right. simpl. lia.
Qed.

Lemma StronglySorted_rows start len m :
  StronglySorted span_lt (b ← seq start len; pair b <$> seq 0 m).
Proof.
  revert start. induction len as [|len IH]; intros start; simpl.
  { constructor. }
  apply StronglySorted_app_2; [|apply StronglySorted_row|apply IH].
  intros p q (e & -> & _)%list_elem_of_fmap
    (b & (e' & -> & _)%list_elem_of_fmap & Hb%elem_of_seq)%list_elem_of_bind.
  left. simpl. lia.
Qed.

Lemma same_sorted_spans (l1 l2 : list (nat * nat)) :
  StronglySorted span_lt l1 → StronglySorted span_lt l2 →
  (∀ p, p ∈ l1 ↔ p ∈ l2) → l1 = l2.
Proof.
  intros H1 H2 Hin. apply (StronglySorted_unique_strong span_lt); [|done..|].
  - eauto using span_lt_asym.
  - apply NoDup_Permutation; eauto using StronglySorted_span_lt_NoDup.
Qed.
End sorted_spans.

Section runs.
Context `{UDB : !UnicodeDB}.

Lemma is_maximal_run_spec (s : str) b e :
  is_maximal_run s (b, e) = true ↔ maximal_run s b e.
Proof.
  unfold is_maximal_run, maximal_run. simpl.
  rewrite !andb_true_iff, orb_true_iff, negb_true_iff, Nat.ltb_lt,
    Nat.eqb_eq, negb_true_iff, forallb_forall.
  split.
  - intros [[[? Hin] ?] ?]. split_and!; [done| |done..].
    intros i Hi. apply Hin, in_seq. lia.
  - intros (? & Hin & ? & ?). split_and!; [done| |done..].
    intros i Hi%in_seq. apply Hin. lia.
Qed.

Lemma maximal_run_bounds (s : str) b e :
  maximal_run s b e → b < e ≤ length s.
Proof.
  intros (? & Hin & _ & _). split; [done|].
  assert (e - 1 < length s); [|lia]. apply word_at_lt, Hin. lia.
Qed.

Lemma elem_of_candidate_spans (s : str) b e :
  (b, e) ∈ candidate_spans s ↔ b ≤ length s ∧ e ≤ length s.
Proof.
  unfold candidate_spans. rewrite list_elem_of_bind. split.
  - intros (b' & (e' & [= -> ->] & He%elem_of_seq)%list_elem_of_fmap
              & Hb%elem_of_seq). lia.
  - intros [Hb He]. exists b. split.
    + apply list_elem_of_fmap. exists e. split; [done|].
      apply elem_of_seq. lia.
    + apply elem_of_seq. lia.
Qed.

Lemma elem_of_maximal_runs (s : str) b e :
  (b, e) ∈ maximal_runs s ↔ maximal_run s b e.
Proof.
  unfold maximal_runs.
  rewrite list_elem_of_filter, elem_of_candidate_spans, Is_true_true,
    is_maximal_run_spec.
  split; [tauto|]. intros Hr. split; [done|].
  apply maximal_run_bounds in Hr. lia.
Qed.

Lemma maximal_runs_sorted (s : str) : StronglySorted span_lt (maximal_runs s).
Proof. apply StronglySorted_filter, StronglySorted_rows. Qed.

(** The scanner from a position where no run is cut finds the maximal runs
    that start at or after it, in order. *)
Lemma scan_loop_runs fuel (s : str) pos :
  length s - pos < fuel →
  pos = 0 ∨ word_at s pos = false →
  (∀ b e, (b, e) ∈ scan_loop fuel s pos ↔ maximal_run s b e ∧ pos ≤ b) ∧
  StronglySorted span_lt (scan_loop fuel s pos).
Proof.
  revert pos. induction fuel as [|fuel IH]; intros pos Hfuel Hpos; [lia|].
  simpl. destruct (search s pos) as [[b0 e0]|] eqn:Hs.
  - pose proof (search_bound _ _ _ _ Hs) as Hle.
    apply search_Some in Hs as (Hb0 & Hskip & Hin & Hend).
    destruct (IH e0) as [IHin IHsorted]; [lia|by right|].
    assert (maximal_run s b0 e0) as Hrun.
    { split_and!; [lia|done| |done].
      destruct (decide (b0 = pos)) as [->|].
      - destruct Hpos as [->|Hpos]; [by left|].
        rewrite Hin in Hpos by lia. done.
      - right. apply Hskip. lia. }
    split.
    + intros b e. rewrite elem_of_cons, IHin. split.
      * intros [[= -> ->]|[? ?]]; split; [done|lia|done|lia].
      * intros [(Hbe & Hin' & Hleft & Hend') Hb].
        assert (b0 ≤ b) as Hb0b.
        { destruct (decide (b0 ≤ b)); [done|].
          specialize (Hin' b ltac:(lia)).
          rewrite Hskip in Hin' by lia. done. }
        destruct (decide (b = b0)) as [->|].
        -- left. f_equal.
           destruct (decide (e < e0)).
           { rewrite Hin in Hend' by lia. done. }
           destruct (decide (e0 < e)); [|lia].
           rewrite Hin' in Hend by lia. done.
        -- right. split; [done|].
           destruct Hleft as [->|Hleft]; [lia|].
           destruct (decide (e0 ≤ b)); [done|].
           rewrite Hin in Hleft by lia. done.
    + constructor; [done|]. rewrite Forall_forall.
      intros [b e] [_ ?]%IHin. left. simpl. lia.
  - split; [|constructor]. intros b e. rewrite elem_of_nil.
    split; [done|]. intros [(Hbe & Hin' & _) Hb].
    specialize (Hin' b ltac:(lia)).
    rewrite (search_None _ _ b Hs Hb) in Hin'. done.
Qed.

Lemma match_spans_maximal_runs (s : str) : match_spans s = maximal_runs s.
Proof.
  destruct (scan_loop_runs (S (length s - 0)) s 0) as [Hin Hsorted];
    [lia|by left|].
  apply same_sorted_spans; [done|apply maximal_runs_sorted|].
  intros [b e]. unfold match_spans, spans_from.
  rewrite Hin, elem_of_maximal_runs. intuition lia.
Qed.

(** More fuel than the text has characters left changes nothing. *)
Lemma scan_loop_fuel fuel1 fuel2 (s : str) pos :
  length s - pos < fuel1 → length s - pos < fuel2 →
  scan_loop fuel1 s pos = scan_loop fuel2 s pos.
Proof.
  revert fuel2 pos. induction fuel1 as [|fuel1 IH]; intros fuel2 pos; [lia|].
  destruct fuel2 as [|fuel2]; [lia|]. intros H1 H2. simpl.
  destruct (search s pos) as [[b e]|] eqn:Hs; [|done].
  pose proof (search_bound _ _ _ _ Hs).
  apply search_Some in Hs as (? & _). f_equal. apply IH; lia.
Qed.

Lemma spans_from_unfold (s : str) pos :
  spans_from s pos =
  match search s pos with
  | Some (b, e) => (b, e) :: spans_from s e
  | None => []
  end.
Proof.
  unfold spans_from at 1. simpl.
  destruct (search s pos) as [[b e]|] eqn:Hs; [|done].
  pose proof (search_bound _ _ _ _ Hs).
  apply search_Some in Hs as (? & _). f_equal.
  apply scan_loop_fuel; lia.
Qed.
End runs.

(** * Running the methods on a known heap *)

Section exec.
Context `{UDB : !UnicodeDB}.

Lemma bind_Ok {A B} (m : M A) (k : A → M B) h a h' :
  m h = (Ok a, h') → (m ≫= k) h = k a h'.
Proof. unfold mbind, M_bind, bind. by intros ->. Qed.

Lemma bind_Raise {A B} (m : M A) (k : A → M B) h e h' :
  m h = (Raise e, h') → (m ≫= k) h = (Raise e, h').
Proof. unfold mbind, M_bind, bind. by intros ->. Qed.

Lemma deref_Ok h l o : h !! l = Some o → deref l h = (Ok o, h).
Proof. unfold deref. by intros ->. Qed.

Lemma getattr_Ok h l cls attrs name v :
  h !! l = Some (Instance cls attrs) → attrs !! name = Some v →
  getattr (VRef l) name h = (Ok v, h).
Proof.
  intros Hl Hv. unfold getattr. erewrite bind_Ok by by apply deref_Ok.
  cbn beta iota. by rewrite Hv.
Qed.

Lemma setattr_Ok h l cls attrs name v :
  h !! l = Some (Instance cls attrs) →
  setattr (VRef l) name v h = (Ok tt, <[l:=Instance cls (<[name:=v]> attrs)]> h).
Proof.
  intros Hl. unfold setattr. by erewrite bind_Ok by by apply deref_Ok.
Qed.

Lemma agree_on_insert X (h : heap) l o : l ∉ X → agree_on X h (<[l:=o]> h).
Proof. intros Hl l' Hl'. apply lookup_insert_ne. set_solver. Qed.

Lemma agree_on_trans X (h1 h2 h3 : heap) :
  agree_on X h1 h2 → agree_on X h2 h3 → agree_on X h1 h3.
Proof. intros H12 H23 l Hl. by rewrite H23, H12. Qed.

Lemma agree_on_refl X (h : heap) : agree_on X h h.
Proof. done. Qed.

Lemma agree_on_mono X Y (h h' : heap) : X ⊆ Y → agree_on Y h h' → agree_on X h h'.
Proof. intros HXY Hag l Hl. apply Hag. set_solver. Qed.

Lemma fresh_lookup (h : heap) : h !! fresh (dom h) = None.
Proof. apply not_elem_of_dom, is_fresh. Qed.

Lemma iter_sentence v text ls w h :
  sentence_rep v text ls w h →
  ∃ c h' fp, iter (VRef ls) h = (Ok c, h') ∧
    cursor_rep v text ls w h' c 0 fp ∧
    fp ⊆ dom h' ∧ fp ## dom h ∧ agree_on (dom h) h h'.
Proof.
  pose proof (is_fresh (dom h)) as Hfresh.
  destruct v; simpl.
  - intros (attrs & Hls & _ & Hwords & Hw).
    remember (fresh (dom h)) as l eqn:Hl.
    eexists (VRef l), _, {[l]}. split_and!.
    + unfold iter. erewrite bind_Ok by by apply deref_Ok. cbn beta iota.
      unfold Sentence.__iter__. erewrite bind_Ok by eauto using getattr_Ok.
      unfold instantiate. erewrite bind_Ok by done. rewrite <-Hl.
      erewrite bind_Ok; [done|].
      unfold SentenceIterator.__init__.
      erewrite bind_Ok by (apply setattr_Ok; apply lookup_insert_eq).
      erewrite setattr_Ok by apply lookup_insert_eq. done.
    + split; [lia|]. eexists l, _. split_and!; [done..| | |].
      * apply lookup_insert_eq.
      * by rewrite lookup_insert_ne, lookup_insert_eq.
      * by rewrite lookup_insert_eq.
    + rewrite !dom_insert_L. set_solver.
    + set_solver.
    + rewrite !insert_insert_eq. by apply agree_on_insert.
  - intros (attrs & Hls & _ & Hwords & Hw).
    remember (fresh (dom h)) as g eqn:Hg.
    eexists (VRef g), _, {[g]}. split_and!.
    + unfold iter. erewrite bind_Ok by by apply deref_Ok. cbn beta iota.
      unfold Sentence_gen.__iter__. erewrite bind_Ok by done.
      by rewrite <-Hg.
    + split; [lia|]. exists g. split; [done|]. left.
      by rewrite lookup_insert_eq.
    + rewrite !dom_insert_L. set_solver.
    + set_solver.
    + by apply agree_on_insert.
  - intros (attrs & Hls & Hsentence & Hre & _).
    remember (fresh (dom h)) as it eqn:Hit.
    pose proof (is_fresh (dom (<[it:=FindIter text (Some 0)]> h))) as Hfresh1.
    remember (fresh (dom (<[it:=FindIter text (Some 0)]> h))) as g eqn:Hg.
    rewrite dom_insert_L in Hfresh1.
    assert (g ≠ it) as Hne by set_solver.
    eexists (VRef g), _, {[g; it]}. split_and!.
    + unfold iter. erewrite bind_Ok by by apply deref_Ok. cbn beta iota.
      unfold Sentence_genexp.__iter__.
      erewrite bind_Ok by eauto using getattr_Ok.
      erewrite bind_Ok by eauto using getattr_Ok.
      erewrite bind_Ok.
      2:{ unfold finditer. erewrite bind_Ok by reflexivity. reflexivity. }
      rewrite <-Hit.
      erewrite bind_Ok.
      2:{ unfold iter_builtin.
          erewrite bind_Ok by apply deref_Ok, lookup_insert_eq. done. }
      erewrite bind_Ok by reflexivity. by rewrite <-Hg.
    + split; [lia|]. exists g. split; [done|]. left. exists it, 0.
      split_and!; [apply lookup_insert_eq| |done..].
      rewrite lookup_insert_ne by done. apply lookup_insert_eq.
    + rewrite !dom_insert_L. set_solver.
    + set_solver.
    + eapply agree_on_trans; apply agree_on_insert; set_solver.
Qed.

Lemma getitem_list h w items i :
  h !! w = Some (PyList items) →
  getitem (VRef w) (VInt (Z.of_nat i)) h =
  match items !! i with
  | Some v => (Ok v, h)
  | None => (Raise IndexError, h)
  end.
Proof.
  intros Hw. unfold getitem. erewrite bind_Ok by by apply deref_Ok.
  cbn beta iota zeta.
  destruct (Z.ltb_spec (Z.of_nat i) 0); [lia|].
  rewrite Nat2Z.id.
  destruct (items !! i) as [v|] eqn:Hi.
  - apply lookup_lt_Some in Hi.
    destruct (Z.leb_spec 0 (Z.of_nat i)); [|lia].
    destruct (Z.ltb_spec (Z.of_nat i) (Z.of_nat (length items))); [|lia].
    done.
  - apply lookup_ge_None in Hi.
    destruct (Z.leb_spec 0 (Z.of_nat i)); [|lia].
    destruct (Z.ltb_spec (Z.of_nat i) (Z.of_nat (length items))); [lia|].
    done.
Qed.

Lemma next_SentenceIterator h l w i attrs items :
  h !! l = Some (Instance C_SentenceIterator attrs) →
  attrs !! "words" = Some (VRef w) →
  attrs !! "_index" = Some (VInt (Z.of_nat i)) →
  h !! w = Some (PyList items) →
  SentenceIterator.__next__ (VRef l) h =
  match items !! i with
  | Some v =>
      (Ok v, <[l:=Instance C_SentenceIterator
                    (<["_index":=VInt (Z.of_nat (S i))]> attrs)]> h)
  | None => (Raise StopIteration, h)
  end.
Proof.
  intros Hl Hwords Hindex Hw. unfold SentenceIterator.__next__.
  assert ((words ← getattr (VRef l) "words";
           index ← getattr (VRef l) "_index";
           getitem words index) h
          = getitem (VRef w) (VInt (Z.of_nat i)) h) as Hget.
  { erewrite bind_Ok by eauto using getattr_Ok.
    by erewrite bind_Ok by eauto using getattr_Ok. }
  rewrite (getitem_list _ _ items) in Hget by done.
  destruct (items !! i) as [v|] eqn:Hi.
  - erewrite bind_Ok; [|by unfold try_except; rewrite Hget].
    erewrite bind_Ok; [done|].
    erewrite bind_Ok by eauto using getattr_Ok.
    erewrite bind_Ok by done.
    erewrite setattr_Ok by done. do 4 f_equal. f_equal. lia.
  - erewrite bind_Raise; [done|]. unfold try_except. by rewrite Hget.
Qed.

Lemma next_ListIterator h it w i items :
  h !! it = Some (ListIterator (Some w) i) →
  h !! w = Some (PyList items) →
  next_builtin (VRef it) h =
  match items !! i with
  | Some v => (Ok v, <[it:=ListIterator (Some w) (S i)]> h)
  | None => (Raise StopIteration, <[it:=ListIterator None i]> h)
  end.
Proof.
  intros Hit Hw. unfold next_builtin.
  erewrite bind_Ok by by apply deref_Ok. cbn beta iota.
  unfold listiter_next. erewrite bind_Ok by by apply deref_Ok.
  cbn beta iota. destruct (items !! i); [by erewrite bind_Ok by done|].
  by erewrite bind_Ok by done.
Qed.

Lemma next_FindIter h it text p :
  h !! it = Some (FindIter text (Some p)) →
  (m ← next_builtin (VRef it); match_group m) h =
  match search text p with
  | Some (b, e) =>
      (Ok (VStr (group text (b, e))), <[it:=FindIter text (Some e)]> h)
  | None => (Raise StopIteration, <[it:=FindIter text None]> h)
  end.
Proof.
  intros Hit.
  assert (next_builtin (VRef it) h = finditer_next it text (Some p) h) as Hn.
  { unfold next_builtin. by erewrite bind_Ok by by apply deref_Ok. }
  unfold finditer_next in Hn.
  destruct (search text p) as [[b e]|] eqn:Hs.
  - erewrite bind_Ok by (rewrite Hn; by erewrite bind_Ok by done). done.
  - erewrite bind_Raise; [done|]. rewrite Hn. by erewrite bind_Ok by done.
Qed.

Lemma nth_result_fmap (tokens : list str) i :
  match (VStr <$> tokens) !! i with
  | Some v => Ok v
  | None => Raise StopIteration
  end = nth_result tokens i.
Proof. unfold nth_result. rewrite list_lookup_fmap. by destruct (tokens !! i). Qed.

Lemma drop_cons_inv {A} (l : list A) i x l' :
  drop i l = x :: l' → l !! i = Some x ∧ drop (S i) l = l'.
Proof.
  intros Hd. assert (l !! i = Some x) as Hi.
  { replace i with (i + 0) by lia. by rewrite <-lookup_drop, Hd. }
  split; [done|]. erewrite drop_S in Hd by done. by injection Hd.
Qed.

Lemma gen_loop_round_list h g it w i (tokens : list str) :
  h !! it = Some (ListIterator (Some w) i) →
  h !! w = Some (PyList (VStr <$> tokens)) →
  gen_loop_round g (VRef it) h =
  match tokens !! i with
  | Some t =>
      (Ok (VStr t),
       <[g:=Generator (gen_loop (VRef it))]>
         (<[it:=ListIterator (Some w) (S i)]> h))
  | None =>
      (Raise StopIteration,
       <[g:=Generator gen_done]> (<[it:=ListIterator None i]> h))
  end.
Proof.
  intros Hit Hw. unfold gen_loop_round.
  erewrite next_ListIterator by done. rewrite list_lookup_fmap.
  by destruct (tokens !! i).
Qed.

Lemma nth_result_end (tokens : list str) :
  nth_result tokens (length tokens) = Raise StopIteration.
Proof.
  unfold nth_result. by rewrite (proj2 (lookup_ge_None tokens _)) by lia.
Qed.

Lemma next_cursor v text ls w h c i fp :
  sentence_rep v text ls w h →
  cursor_rep v text ls w h c i fp →
  fp ⊆ dom h → ls ∉ fp → w ∉ fp →
  ∃ h' fp',
    next c h = (nth_result (findall text) i, h') ∧
    cursor_rep v text ls w h' c
      (if decide (i < length (findall text)) then S i else i) fp' ∧
    fp' ⊆ dom h' ∧ fp' ∖ fp ## dom h ∧ agree_on (dom h ∖ fp) h h'.
Proof.
  intros Hs [Hi Hc] Hfp Hls Hw. destruct v; simpl in *.
  - destruct Hs as (sattrs & Hsent & _ & Hwords & Hlist).
    destruct Hc as (l & attrs & -> & -> & Hl & Hcw & Hidx).
    assert (next (VRef l) h = SentenceIterator.__next__ (VRef l) h) as ->.
    { unfold next. by erewrite bind_Ok by by apply deref_Ok. }
    erewrite next_SentenceIterator by done.
    rewrite list_lookup_fmap. unfold nth_result.
    destruct (findall text !! i) as [t|] eqn:Ht; simpl.
    + pose proof (lookup_lt_Some _ _ _ Ht).
      rewrite decide_True by done.
      eexists _, {[l]}. split_and!; [done| | | |].
      * split; [lia|]. eexists l, _. split_and!; [done..| | |].
        -- apply lookup_insert_eq.
        -- by rewrite lookup_insert_ne.
        -- by rewrite lookup_insert_eq.
      * rewrite dom_insert_L. set_solver.
      * set_solver.
      * apply agree_on_insert. set_solver.
    + apply lookup_ge_None in Ht. rewrite decide_False by lia.
      eexists _, {[l]}. split_and!; [done| |done|set_solver|done].
      split; [lia|]. by eexists l, attrs.
  - destruct Hs as (sattrs & Hsent & _ & Hwords & Hlist).
    destruct Hc as (g & -> & [(Hg & -> & ->)|[(it & Hg & Hit & ->)|(Hg & -> & ->)]]).
    + pose proof (is_fresh (dom h)) as Hfresh.
      remember (fresh (dom h)) as it eqn:Hit.
      assert (it ≠ w) as Hitw.
      { intros ->. by apply Hfresh, elem_of_dom. }
      assert (next (VRef g) h
              = gen_loop_round g (VRef it)
                  (<[it:=ListIterator (Some w) 0]> h)) as ->.
      { unfold next. erewrite bind_Ok by by apply deref_Ok. cbn beta iota.
        unfold gen_next.
        assert ((words ← getattr (VRef ls) "words"; iter_builtin words) h
                = (Ok (VRef it), <[it:=ListIterator (Some w) 0]> h))
          as ->; [|done].
        erewrite bind_Ok by eauto using getattr_Ok.
        unfold iter_builtin. erewrite bind_Ok by by apply deref_Ok.
        cbn beta iota. erewrite bind_Ok by done. by rewrite Hit. }
      clear Hit.
      erewrite gen_loop_round_list;
        [|apply lookup_insert_eq|by rewrite lookup_insert_ne].
      unfold nth_result.
      destruct (findall text !! 0) as [t|] eqn:Ht; simpl.
      * pose proof (lookup_lt_Some _ _ _ Ht).
        rewrite decide_True by done.
        eexists _, {[g; it]}. split_and!; [done| | | |].
        -- split; [lia|]. exists g. split; [done|]. right; left. exists it.
           assert (g ≠ it) by set_solver.
           split_and!; [apply lookup_insert_eq| |done].
           rewrite lookup_insert_ne by done. apply lookup_insert_eq.
        -- rewrite !dom_insert_L. set_solver.
        -- set_solver.
        -- eapply agree_on_trans; [|apply agree_on_insert; set_solver].
           eapply agree_on_trans; apply agree_on_insert; set_solver.
      * apply lookup_ge_None in Ht. rewrite decide_False by lia.
        eexists _, {[g]}. split_and!; [done| | | |].
        -- split; [lia|]. exists g. split; [done|]. right; right.
           split_and!; [apply lookup_insert_eq|lia|done].
        -- rewrite !dom_insert_L. set_solver.
        -- set_solver.
        -- eapply agree_on_trans; [|apply agree_on_insert; set_solver].
           eapply agree_on_trans; apply agree_on_insert; set_solver.
    + assert (g ≠ it) as Hgit by (intros ->; congruence).
      assert (next (VRef g) h = gen_loop_round g (VRef it) h) as ->.
      { unfold next. by erewrite bind_Ok by by apply deref_Ok. }
      erewrite gen_loop_round_list by done.
      unfold nth_result.
      destruct (findall text !! i) as [t|] eqn:Ht; simpl.
      * pose proof (lookup_lt_Some _ _ _ Ht).
        rewrite decide_True by done.
        eexists _, {[g; it]}. split_and!; [done| | | |].
        -- split; [lia|]. exists g. split; [done|]. right; left. exists it.
           split_and!; [apply lookup_insert_eq| |done].
           rewrite lookup_insert_ne by done. apply lookup_insert_eq.
        -- rewrite !dom_insert_L. set_solver.
        -- set_solver.
        -- eapply agree_on_trans; apply agree_on_insert; set_solver.
      * apply lookup_ge_None in Ht. rewrite decide_False by lia.
        eexists _, {[g]}. split_and!; [done| | | |].
        -- split; [lia|]. exists g. split; [done|]. right; right.
           split_and!; [apply lookup_insert_eq|lia|done].
        -- rewrite !dom_insert_L. set_solver.
        -- set_solver.
        -- eapply agree_on_trans; apply agree_on_insert; set_solver.
    + assert (next (VRef g) h = (Raise StopIteration, h)) as ->.
      { unfold next. by erewrite bind_Ok by by apply deref_Ok. }
      rewrite nth_result_end, decide_False by lia.
      eexists _, {[g]}. split_and!; [done| |done|set_solver|done].
      split; [lia|]. exists g. split; [done|]. by right; right.
  - destruct Hs as (sattrs & Hsent & Hsentence & Hre & _).
    destruct Hc as (g & -> & [(it & p & Hg & Hit & Hspans & ->)|(Hg & -> & ->)]).
    + assert (g ≠ it) as Hgit by (intros ->; congruence).
      assert (next (VRef g) h = genexp_loop_round g (VRef it) h) as ->.
      { unfold next. by erewrite bind_Ok by by apply deref_Ok. }
      unfold genexp_loop_round. erewrite next_FindIter by done.
      rewrite spans_from_unfold in Hspans.
      unfold findall, nth_result in *. rewrite list_lookup_fmap.
      rewrite length_fmap in Hi |- *.
      destruct (search text p) as [[b e]|] eqn:Hsearch.
      * symmetry in Hspans. apply drop_cons_inv in Hspans as [Hlook Hdrop].
        pose proof (lookup_lt_Some _ _ _ Hlook).
        rewrite Hlook. simpl. rewrite decide_True by done.
        eexists _, {[g; it]}. split_and!; [done| | | |].
        -- unfold cursor_rep, findall. rewrite length_fmap. split; [lia|]. exists g. split; [done|].
           left. exists it, e.
           split_and!; [apply lookup_insert_eq| |done..].
           rewrite lookup_insert_ne by done. apply lookup_insert_eq.
        -- rewrite !dom_insert_L. set_solver.
        -- set_solver.
        -- eapply agree_on_trans; apply agree_on_insert; set_solver.
      * symmetry in Hspans. apply drop_nil_inv in Hspans.
        rewrite (proj2 (lookup_ge_None _ _)) by done. simpl.
        rewrite decide_False by lia.
        eexists _, {[g]}. split_and!; [done| | | |].
        -- unfold cursor_rep, findall. rewrite length_fmap. split; [lia|]. exists g. split; [done|].
           right. split_and!; [apply lookup_insert_eq|lia|done].
        -- rewrite !dom_insert_L. set_solver.
        -- set_solver.
        -- eapply agree_on_trans; apply agree_on_insert; set_solver.
    + assert (next (VRef g) h = (Raise StopIteration, h)) as ->.
      { unfold next. by erewrite bind_Ok by by apply deref_Ok. }
      rewrite nth_result_end, decide_False by lia.
      eexists _, {[g]}. split_and!; [done| |done|set_solver|done].
      split; [lia|]. exists g. split; [done|]. by right.
Qed.
End exec.

(** * The client invariant *)

Section invariant.
Context `{UDB : !UnicodeDB}.
Variables (v : variant) (text : str) (ls w : loc).

Lemma agree_lookup X (h h' : heap) l o :
  agree_on X h h' → l ∈ X → h !! l = Some o → h' !! l = Some o.
Proof. intros Hag Hl Ho. by rewrite Hag. Qed.

Lemma agree_on_dom X (h h' : heap) :
  agree_on X h h' → X ⊆ dom h → X ⊆ dom h'.
Proof.
  intros Hag HX l Hl. apply elem_of_dom. rewrite Hag by done.
  apply elem_of_dom. auto.
Qed.

Lemma sentence_rep_dom h :
  sentence_rep v text ls w h → ls ∈ dom h ∧ w ∈ dom h.
Proof.
  destruct v; simpl.
  - intros (? & ? & _ & _ & ?). split; by apply elem_of_dom.
  - intros (? & ? & _ & _ & ?). split; by apply elem_of_dom.
  - intros (? & ? & _ & _ & ->). split; by apply elem_of_dom.
Qed.

Lemma sentence_rep_agree h h' :
  sentence_rep v text ls w h → agree_on {[ls; w]} h h' →
  sentence_rep v text ls w h'.
Proof.
  intros Hs Hag.
  assert (∀ l o, l = ls ∨ l = w → h !! l = Some o → h' !! l = Some o) as Hl.
  { intros l o Hlw. apply (agree_lookup {[ls; w]}); [done|set_solver]. }
  destruct v; simpl in *.
  - destruct Hs as (attrs & ? & ? & ? & ?). exists attrs. naive_solver.
  - destruct Hs as (attrs & ? & ? & ? & ?). exists attrs. naive_solver.
  - destruct Hs as (attrs & ? & ? & ? & ?). exists attrs. naive_solver.
Qed.

Lemma cursor_rep_agree h h' c i fp :
  cursor_rep v text ls w h c i fp → agree_on fp h h' →
  cursor_rep v text ls w h' c i fp.
Proof.
  intros [Hi Hc] Hag. split; [done|].
  assert (∀ l o, l ∈ fp → h !! l = Some o → h' !! l = Some o) as Hl.
  { intros l o ?. by apply (agree_lookup fp). }
  destruct v.
  - destruct Hc as (l & attrs & -> & -> & ? & ? & ?).
    exists l, attrs. split_and!; try done. apply Hl; [set_solver|done].
  - destruct Hc as (g & -> & [(? & -> & ->)|[(it & ? & ? & ->)|(? & -> & ->)]]);
      exists g; (split; [done|]).
    + left. split_and!; try done. apply Hl; [set_solver|done].
    + right; left. exists it.
      split_and!; try done; (apply Hl; [set_solver|done]).
    + right; right. split_and!; try done. apply Hl; [set_solver|done].
  - destruct Hc as (g & -> & [(it & p & ? & ? & ? & ->)|(? & -> & ->)]);
      exists g; (split; [done|]).
    + left. exists it, p.
      split_and!; try done; (apply Hl; [set_solver|done]).
    + right. split_and!; try done. apply Hl; [set_solver|done].
Qed.

Lemma client_inv_begin h cs :
  client_inv v text ls w h cs →
  ∃ c h' fp,
    iter (VRef ls) h = (Ok c, h') ∧
    client_inv v text ls w h' (cs ++ [Cursor c 0 fp]) ∧
    fp ## dom h ∧ agree_on (dom h) h h'.
Proof.
  intros (Hs & Hcs & Hdisj).
  destruct (iter_sentence _ _ _ _ _ Hs) as (c & h' & fp & Hiter & Hc & Hfp & Hnew & Hag).
  pose proof (sentence_rep_dom _ Hs) as [Hls Hw].
  exists c, h', fp. split_and!; [done| |done..].
  split_and!.
  - eapply sentence_rep_agree; [done|].
    eapply agree_on_mono; [|done]. set_solver.
  - intros k d [Hd|[_ Hd]]%lookup_app_Some.
    + destruct (Hcs _ _ Hd) as (Hrep & Hsub & ? & ?).
      split_and!; [|eapply agree_on_dom; [|done]|done..].
      * eapply cursor_rep_agree; [done|]. by eapply agree_on_mono.
      * by eapply agree_on_mono.
    + apply list_lookup_singleton_Some in Hd as [_ <-]. simpl.
      split_and!; [done..|set_solver|set_solver].
  - intros j k d1 d2 Hjk [H1|[? H1]]%lookup_app_Some [H2|[? H2]]%lookup_app_Some.
    + eauto.
    + apply list_lookup_singleton_Some in H2 as [_ <-]. simpl.
      destruct (Hcs _ _ H1) as (_ & Hsub & _). set_solver.
    + apply list_lookup_singleton_Some in H1 as [_ <-]. simpl.
      destruct (Hcs _ _ H2) as (_ & Hsub & _). set_solver.
    + apply list_lookup_singleton_Some in H1 as [? _].
      apply list_lookup_singleton_Some in H2 as [? _]. lia.
Qed.

Lemma client_inv_advance h cs j c :
  client_inv v text ls w h cs → cs !! j = Some c →
  ∃ h' fp',
    next (handle c) h = (nth_result (findall text) (position c), h') ∧
    client_inv v text ls w h'
      (<[j:=Cursor (handle c)
              (if decide (position c < length (findall text))
               then S (position c) else position c) fp']> cs) ∧
    fp' ∖ footprint c ## dom h ∧
    agree_on (dom h ∖ footprint c) h h'.
Proof.
  intros (Hs & Hcs & Hdisj) Hj.
  destruct (Hcs _ _ Hj) as (Hrep & Hsub & Hlsc & Hwc).
  destruct (next_cursor _ _ _ _ _ _ _ _ Hs Hrep Hsub Hlsc Hwc)
    as (h' & fp' & Hnext & Hrep' & Hsub' & Hnew & Hag).
  pose proof (sentence_rep_dom _ Hs) as [Hls Hw].
  pose proof (lookup_lt_Some _ _ _ Hj) as Hlt.
  exists h', fp'. split_and!; [done| |done..].
  split_and!.
  - eapply sentence_rep_agree; [done|].
    eapply agree_on_mono; [|done]. set_solver.
  - intros k d Hd. destruct (decide (k = j)) as [->|Hne].
    + rewrite list_lookup_insert_eq in Hd by done.
      injection Hd as <-. simpl. split_and!; [done..| |]; set_solver.
    + rewrite list_lookup_insert_ne in Hd by done.
      destruct (Hcs _ _ Hd) as (Hrepd & Hsubd & ? & ?).
      assert (footprint d ## footprint c) by eauto.
      assert (agree_on (footprint d) h h').
      { eapply agree_on_mono; [|done]. set_solver. }
      split_and!; [|eapply agree_on_dom|..]; try done.
      by eapply cursor_rep_agree.
  - intros k1 k2 d1 d2 Hk H1 H2.
    destruct (decide (k1 = j)) as [->|Hne1];
      destruct (decide (k2 = j)) as [->|Hne2]; [done|..].
    + rewrite list_lookup_insert_eq in H1 by done.
      rewrite list_lookup_insert_ne in H2 by done.
      injection H1 as <-. simpl.
      destruct (Hcs _ _ H2) as (_ & Hsubd & _).
      assert (footprint d2 ## footprint c) by eauto. set_solver.
    + rewrite list_lookup_insert_ne in H1 by done.
      rewrite list_lookup_insert_eq in H2 by done.
      injection H2 as <-. simpl.
      destruct (Hcs _ _ H1) as (_ & Hsubd & _).
      assert (footprint d1 ## footprint c) by eauto. set_solver.
    + rewrite list_lookup_insert_ne in H1 by done.
      rewrite list_lookup_insert_ne in H2 by done. eauto.
Qed.

Lemma run_cons s c script cursors h :
  run s (c :: script) cursors h =
  let '(ev, cursors', h') := perform s c cursors h in
  let '(evs, cursors'', h'') := run s script cursors' h' in
  (ev :: evs, cursors'', h'').
Proof. done. Qed.

(** A client sees what the independent cursors of the model produce; the
    sentence is left as it is, and no cursor moves backwards. *)
Lemma run_model script h cs :
  client_inv v text ls w h cs →
  ∃ cs' h',
    run (VRef ls) script (handle <$> cs) h =
      (model_run (findall text) script (position <$> cs),
       handle <$> cs', h') ∧
    client_inv v text ls w h' cs' ∧
    agree_on {[ls; w]} h h' ∧
    (∀ k c, cs !! k = Some c →
       ∃ c', cs' !! k = Some c' ∧ handle c' = handle c ∧
         position c ≤ position c').
Proof.
  revert h cs. induction script as [|[|j] script IH]; intros h cs Hinv.
  - exists cs, h. split_and!; [done..|]. eauto.
  - destruct (client_inv_begin _ _ Hinv) as (c & h1 & fp & Hiter & Hinv1 & Hnew & Hag).
    destruct (IH _ _ Hinv1) as (cs' & h' & Hrun & Hinv' & Hag' & Hmono).
    pose proof (sentence_rep_dom _ (proj1 Hinv)) as [Hls Hw].
    exists cs', h'. split_and!; [|done| |].
    + rewrite run_cons. unfold perform. rewrite Hiter.
      rewrite fmap_app in Hrun. simpl in Hrun. rewrite Hrun.
      simpl. by rewrite fmap_app.
    + eapply agree_on_trans; [|done].
      eapply agree_on_mono; [|done]. set_solver.
    + intros k d Hd. apply Hmono. by apply lookup_app_l_Some.
  - destruct (cs !! j) as [c|] eqn:Hj.
    + destruct (client_inv_advance _ _ _ _ Hinv Hj)
        as (h1 & fp' & Hnext & Hinv1 & _ & Hag).
      destruct (IH _ _ Hinv1) as (cs' & h' & Hrun & Hinv' & Hag' & Hmono).
      pose proof (sentence_rep_dom _ (proj1 Hinv)) as [Hls Hw].
      destruct Hinv as (_ & Hcs & _).
      destruct (Hcs _ _ Hj) as (_ & _ & ? & ?).
      exists cs', h'. split_and!; [|done| |].
      * rewrite run_cons. unfold perform.
        rewrite list_lookup_fmap, Hj. simpl. rewrite Hnext.
        rewrite list_fmap_insert in Hrun. simpl in Hrun.
        rewrite (list_insert_id (handle <$> cs)) in Hrun
          by by rewrite list_lookup_fmap, Hj.
        rewrite list_lookup_fmap, Hj. simpl.
        rewrite list_fmap_insert in Hrun. simpl in Hrun.
        case_decide.
        -- by rewrite Hrun.
        -- rewrite (list_insert_id (position <$> cs)) in Hrun
             by by rewrite list_lookup_fmap, Hj.
           by rewrite Hrun.
      * eapply agree_on_trans; [|done].
        eapply agree_on_mono; [|done]. set_solver.
      * intros k d Hd. destruct (decide (k = j)) as [->|Hne].
        -- destruct (Hmono j (Cursor (handle c)
              (if decide (position c < length (findall text))
               then S (position c) else position c) fp'))
             as (c' & Hc' & Hh & Hp).
           { apply list_lookup_insert_eq. by eapply lookup_lt_Some. }
           simpl in *. exists c'. assert (d = c) as -> by congruence.
           split_and!; [done..|]. case_decide; lia.
        -- apply Hmono. by rewrite list_lookup_insert_ne.
    + destruct (IH _ _ Hinv) as (cs' & h' & Hrun & Hinv' & Hag' & Hmono).
      exists cs', h'. split_and!; [|done..].
      rewrite run_cons. unfold perform.
      rewrite list_lookup_fmap, Hj. simpl. rewrite Hrun.
      by rewrite list_lookup_fmap, Hj.
Qed.
End invariant.

Section construction.
Context `{UDB : !UnicodeDB}.

Lemma Sentence_new_rep v text h0 :
  ∃ ls w h,
    Sentence_new v (VStr text) h0 = (Ok (VRef ls), h) ∧
    sentence_rep v text ls w h ∧
    (ls ∉ dom h0) ∧ (w ∉ dom h0) ∧ agree_on (dom h0) h0 h.
Proof.
  pose proof (is_fresh (dom h0)) as Hfresh.
  remember (fresh (dom h0)) as ls eqn:Hls.
  destruct v.
  - pose proof (is_fresh (dom (<[ls:=Instance C_Sentence
      (<["sentence":=VStr text]> ∅)]> (<[ls:=Instance C_Sentence ∅]> h0))))
      as Hfresh'.
    remember (fresh (dom (<[ls:=Instance C_Sentence
      (<["sentence":=VStr text]> ∅)]> (<[ls:=Instance C_Sentence ∅]> h0))))
      as w eqn:Hw.
    rewrite !dom_insert_L in Hfresh'.
    assert (w ≠ ls) by set_solver.
    eexists ls, w, _. split_and!.
    + unfold Sentence_new, instantiate.
      erewrite bind_Ok by reflexivity. rewrite <-Hls.
      erewrite bind_Ok; [done|]. unfold Sentence.__init__.
      erewrite bind_Ok by (apply setattr_Ok, lookup_insert_eq).
      erewrite bind_Ok.
      2:{ unfold re_findall. erewrite bind_Ok by reflexivity.
          rewrite <-Hw. reflexivity. }
      apply setattr_Ok. rewrite lookup_insert_ne by done.
      apply lookup_insert_eq.
    + eexists. split_and!.
      * apply lookup_insert_eq.
      * by rewrite lookup_insert_ne, lookup_insert_eq.
      * apply lookup_insert_eq.
      * rewrite lookup_insert_ne by done. apply lookup_insert_eq.
    + done.
    + set_solver.
    + repeat (eapply agree_on_trans; [|apply agree_on_insert; set_solver]).
      done.
  - pose proof (is_fresh (dom (<[ls:=Instance C_Sentence_gen
      (<["sentence":=VStr text]> ∅)]> (<[ls:=Instance C_Sentence_gen ∅]> h0))))
      as Hfresh'.
    remember (fresh (dom (<[ls:=Instance C_Sentence_gen
      (<["sentence":=VStr text]> ∅)]> (<[ls:=Instance C_Sentence_gen ∅]> h0))))
      as w eqn:Hw.
    rewrite !dom_insert_L in Hfresh'.
    assert (w ≠ ls) by set_solver.
    eexists ls, w, _. split_and!.
    + unfold Sentence_new, instantiate.
      erewrite bind_Ok by reflexivity. rewrite <-Hls.
      erewrite bind_Ok; [done|]. unfold Sentence_gen.__init__.
      erewrite bind_Ok by (apply setattr_Ok, lookup_insert_eq).
      erewrite bind_Ok.
      2:{ unfold re_findall. erewrite bind_Ok by reflexivity.
          rewrite <-Hw. reflexivity. }
      apply setattr_Ok. rewrite lookup_insert_ne by done.
      apply lookup_insert_eq.
    + eexists. split_and!.
      * apply lookup_insert_eq.
      * by rewrite lookup_insert_ne, lookup_insert_eq.
      * apply lookup_insert_eq.
      * rewrite lookup_insert_ne by done. apply lookup_insert_eq.
    + done.
    + set_solver.
    + repeat (eapply agree_on_trans; [|apply agree_on_insert; set_solver]).
      done.
  - eexists ls, ls, _. split_and!.
    + unfold Sentence_new, instantiate.
      erewrite bind_Ok by reflexivity. rewrite <-Hls.
      erewrite bind_Ok; [done|]. unfold Sentence_genexp.__init__.
      erewrite bind_Ok by reflexivity.
      erewrite bind_Ok by (apply setattr_Ok, lookup_insert_eq).
      apply setattr_Ok, lookup_insert_eq.
    + eexists. split_and!; [apply lookup_insert_eq| | |done].
      * apply lookup_insert_eq.
      * by rewrite lookup_insert_ne, lookup_insert_eq.
    + done.
    + done.
    + repeat (eapply agree_on_trans; [|apply agree_on_insert; set_solver]).
      done.
Qed.
End construction.

Section reachable.
Context `{UDB : !UnicodeDB}.

(** The states a client can reach. *)
Lemma reachable v text h0 s h1 script evs cursors h :
  Sentence_new v (VStr text) h0 = (Ok s, h1) →
  run s script [] h1 = (evs, cursors, h) →
  ∃ ls w cs,
    s = VRef ls ∧ cursors = handle <$> cs ∧
    evs = model_run (findall text) script [] ∧
    sentence_rep v text ls w h1 ∧
    client_inv v text ls w h cs ∧
    agree_on {[ls; w]} h1 h.
Proof.
  intros Hnew Hrun.
  destruct (Sentence_new_rep v text h0) as (ls & w & h1' & Hnew' & Hs & _).
  rewrite Hnew in Hnew'. injection Hnew' as -> ->.
  assert (client_inv v text ls w h1' []) as Hinv.
  { split_and!; [done|intros ?? [=]|intros ???? _ [=]]. }
  destruct (run_model v text ls w script _ _ Hinv)
    as (cs & h' & Hrun' & Hinv' & Hag & _).
  simpl in Hrun'. rewrite Hrun in Hrun'. injection Hrun' as -> -> ->.
  by exists ls, w, cs.
Qed.

Lemma drain_tokens v text ls w fuel h cs j c :
  client_inv v text ls w h cs → cs !! j = Some c →
  length (findall text) - position c < fuel →
  ∃ h' c',
    drain fuel (handle c) h
      = Some (Ok (VStr <$> drop (position c) (findall text)), h') ∧
    client_inv v text ls w h' (<[j:=c']> cs) ∧ handle c' = handle c.
Proof.
  revert h cs c. induction fuel as [|fuel IH]; intros h cs c Hinv Hj Hfuel;
    [lia|].
  destruct (client_inv_advance _ _ _ _ _ _ _ _ Hinv Hj)
    as (h1 & fp' & Hnext & Hinv1 & _).
  pose proof (lookup_lt_Some _ _ _ Hj) as Hlt.
  simpl. rewrite Hnext. unfold nth_result.
  destruct (findall text !! position c) as [t|] eqn:Ht.
  - pose proof (lookup_lt_Some _ _ _ Ht).
    rewrite decide_True in Hinv1 by done.
    edestruct (IH h1) as (h' & c' & Hdrain & Hinv' & Hh);
      [done|by apply list_lookup_insert_eq|simpl; lia|].
    cbn [handle position footprint] in *. rewrite Hdrain.
    rewrite list_insert_insert_eq in Hinv'.
    exists h', c'. by erewrite (drop_S _ _ _ Ht).
  - apply lookup_ge_None in Ht. rewrite decide_False in Hinv1 by lia.
    eexists h1, _. rewrite drop_ge by done. done.
Qed.

Lemma nth_result_seq_saturate (tokens : list str) i k :
  nth_result tokens <$>
    seq (if decide (i < length tokens) then S i else i) k
  = nth_result tokens <$> seq (S i) k.
Proof.
  case_decide; [done|].
  apply list_eq. intros m. rewrite !list_lookup_fmap.
  destruct (decide (m < k)).
  - rewrite !lookup_seq_lt by done. simpl. unfold nth_result.
    by rewrite !(proj2 (lookup_ge_None _ _)) by lia.
  - by rewrite !lookup_seq_ge by lia.
Qed.

Lemma advance_n_S k it h :
  advance_n (S k) it h =
  let '(r, h') := next it h in
  let '(rs, h'') := advance_n k it h' in
  (r :: rs, h'').
Proof. done. Qed.

Lemma advance_n_inv v text ls w k h cs j c :
  client_inv v text ls w h cs → cs !! j = Some c →
  ∃ h' c',
    advance_n k (handle c) h
      = (nth_result (findall text) <$> seq (position c) k, h') ∧
    client_inv v text ls w h' (<[j:=c']> cs) ∧
    handle c' = handle c ∧
    footprint c' ∖ footprint c ## dom h ∧
    agree_on (dom h ∖ footprint c) h h'.
Proof.
  revert h cs c. induction k as [|k IH]; intros h cs c Hinv Hj.
  - exists h, c. rewrite list_insert_id by done.
    split_and!; [done..|set_solver|done].
  - destruct (client_inv_advance _ _ _ _ _ _ _ _ Hinv Hj)
      as (h1 & fp' & Hnext & Hinv1 & Hnew & Hag).
    pose proof (lookup_lt_Some _ _ _ Hj) as Hlt.
    edestruct (IH h1) as (h' & c' & Hadv & Hinv' & Hh & Hnew' & Hag');
      [done|by apply list_lookup_insert_eq|].
    cbn [handle position footprint] in *.
    rewrite list_insert_insert_eq in Hinv'.
    rewrite nth_result_seq_saturate in Hadv.
    destruct Hinv as (_ & Hcs & _).
    destruct (Hcs _ _ Hj) as (_ & Hsub & _).
    assert (dom h ∖ footprint c ⊆ dom h1) as Hdom.
    { eapply agree_on_dom; [done|set_solver]. }
    exists h', c'. split_and!; [|done..| |].
    + by rewrite advance_n_S, Hnext, Hadv.
    + set_solver.
    + eapply agree_on_trans; [done|].
      eapply agree_on_mono; [|done]. set_solver.
Qed.
End reachable.

Section claims.
Context `{UDB : !UnicodeDB}.

Lemma traverse_tokens v text h0 fuel :
  length (findall text) < fuel →
  ∃ s h1 h2,
    Sentence_new v (VStr text) h0 = (Ok s, h1) ∧
    traverse fuel s h1 = Some (Ok (VStr <$> findall text), h2).
Proof.
  intros Hfuel.
  destruct (Sentence_new_rep v text h0) as (ls & w & h1 & Hnew & Hs & _).
  assert (client_inv v text ls w h1 []) as Hinv.
  { split_and!; [done|intros ?? [=]|intros ???? _ [=]]. }
  destruct (client_inv_begin _ _ _ _ _ _ Hinv)
    as (c & h' & fp & Hiter & Hinv' & _).
  destruct (drain_tokens v text ls w fuel h' _ 0 _ Hinv' eq_refl)
    as (h2 & ? & Hdrain & _); [simpl; lia|].
  exists (VRef ls), h1, h2. split; [done|].
  unfold traverse. by rewrite Hiter.
Qed.

(** Claim C1. For every input string, one full traversal of the sentence
    built from it ([for word in Sentence(text)], run with enough fuel to
    reach the end) produces as many tokens as the text has maximal runs of
    word characters, and the tokens are these runs in the order they occur
    in the text. *)
Theorem C1_tokens_are_maximal_runs (text : str) (h0 : heap) (fuel : nat) :
  length (maximal_runs text) < fuel →
  ∃ s h1 h2 tokens,
    Sentence_new hand_written (VStr text) h0 = (Ok s, h1) ∧
    traverse fuel s h1 = Some (Ok (VStr <$> tokens), h2) ∧
    length tokens = length (maximal_runs text) ∧
    tokens = group text <$> maximal_runs text.
Proof.
  intros Hfuel.
  destruct (traverse_tokens hand_written text h0 fuel)
    as (s & h1 & h2 & Hnew & Htr).
  { unfold findall. by rewrite length_fmap, match_spans_maximal_runs. }
  exists s, h1, h2, (findall text). split_and!; [done..| |].
  - unfold findall. by rewrite length_fmap, match_spans_maximal_runs.
  - unfold findall. by rewrite match_spans_maximal_runs.
Qed.

(** Claim C7. For every input string and every client (any interleaving
    of traversal requests and advances on any of the cursors obtained),
    the class with the hand-written iterator, the class whose [__iter__]
    is a generator function and the class whose [__iter__] returns a
    generator expression over [finditer] show the client the same events:
    each cursor yields the tokens in order and then [StopIteration],
    whatever is done with the other cursors. *)
Theorem C7_three_realizations_equivalent (text : str)
    (script : list cmd) (h1 h2 h3 : heap) :
  observe hand_written text script h1
    = Ok (model_run (findall text) script []) ∧
  observe generator_function text script h2
    = observe hand_written text script h1 ∧
  observe generator_expression text script h3
    = observe hand_written text script h1.
Proof.
  assert (∀ v h0, observe v text script h0
                  = Ok (model_run (findall text) script [])) as Hobs.
  { intros v h0. unfold observe.
    destruct (Sentence_new_rep v text h0) as (ls & w & h & Hnew & Hs & _).
    rewrite Hnew.
    destruct (run (VRef ls) script [] h) as [[evs cursors] h'] eqn:Hrun.
    by destruct (reachable _ _ _ _ _ _ _ _ _ Hnew Hrun)
      as (? & ? & ? & _ & _ & -> & _). }
  by rewrite !Hobs.
Qed.

(** Claim C8. Whatever traversals a client begins and whatever cursors it
    advances, the sentence object and its list of words are afterwards the
    objects that the constructor left: the source string and the token
    list are unchanged. *)
Theorem C8_sentence_unchanged (text : str) (h0 h1 h : heap) (s : value)
    (script : list cmd) (evs : list event) (cursors : list value) :
  Sentence_new hand_written (VStr text) h0 = (Ok s, h1) →
  run s script [] h1 = (evs, cursors, h) →
  ∃ ls w attrs,
    s = VRef ls ∧
    h1 !! ls = Some (Instance C_Sentence attrs) ∧
    attrs !! "sentence" = Some (VStr text) ∧
    attrs !! "words" = Some (VRef w) ∧
    h1 !! w = Some (PyList (VStr <$> findall text)) ∧
    h !! ls = h1 !! ls ∧ h !! w = h1 !! w.
Proof.
  intros Hnew Hrun.
  destruct (reachable _ _ _ _ _ _ _ _ _ Hnew Hrun)
    as (ls & w & cs & -> & _ & _ & Hs & _ & Hag).
  destruct Hs as (attrs & ? & ? & ? & ?).
  exists ls, w, attrs. split_and!; try done; apply Hag; set_solver.
Qed.

(** A hand-written cursor of a reachable state, spelled out. *)
Lemma hand_written_cursor text ls w h cs j c :
  client_inv hand_written text ls w h cs → cs !! j = Some c →
  ∃ l attrs,
    handle c = VRef l ∧ footprint c = {[l]} ∧
    position c ≤ length (findall text) ∧
    h !! l = Some (Instance C_SentenceIterator attrs) ∧
    attrs !! "words" = Some (VRef w) ∧
    attrs !! "_index" = Some (VInt (Z.of_nat (position c))) ∧
    h !! w = Some (PyList (VStr <$> findall text)) ∧
    next (handle c) h = SentenceIterator.__next__ (VRef l) h.
Proof.
  intros ((sattrs & _ & _ & _ & Hw) & Hcs & _) Hj.
  destruct (Hcs _ _ Hj) as ((Hi & l & attrs & Hc & Hfp & Hl & ? & ?) & _).
  exists l, attrs. split_and!; try done.
  rewrite Hc. unfold next. by erewrite bind_Ok by by apply deref_Ok.
Qed.

(** Claim C2. In every state a client can reach: a traversal request
    returns a new object, different from every cursor handed out before,
    with [_index] zero; advancing one cursor any number of times leaves
    the object of any other cursor, and the result of its next advance,
    unchanged; the client sees each cursor yield the tokens regardless of
    the interleaving; and two cursors drained one after the other yield
    the same token sequence. *)
Theorem C2_fresh_independent_cursors (text : str) (h0 h1 h : heap)
    (s : value) (script : list cmd) (evs : list event)
    (cursors : list value) :
  Sentence_new hand_written (VStr text) h0 = (Ok s, h1) →
  run s script [] h1 = (evs, cursors, h) →
  (∃ l attrs h',
     iter s h = (Ok (VRef l), h') ∧ (l ∉ dom h) ∧ (VRef l ∉ cursors) ∧
     h' !! l = Some (Instance C_SentenceIterator attrs) ∧
     attrs !! "_index" = Some (VInt 0)) ∧
  (∀ j1 j2 c1 c2 k,
     j1 ≠ j2 → cursors !! j1 = Some c1 → cursors !! j2 = Some c2 →
     c1 ≠ c2 ∧
     ∃ l2, c2 = VRef l2 ∧
       (advance_n k c1 h).2 !! l2 = h !! l2 ∧
       (next c2 (advance_n k c1 h).2).1 = (next c2 h).1) ∧
  evs = model_run (findall text) script [] ∧
  (∃ c1 c2 ha hb hc hd,
     iter s h = (Ok c1, ha) ∧ iter s ha = (Ok c2, hb) ∧ c1 ≠ c2 ∧
     drain (S (length (findall text))) c1 hb
       = Some (Ok (VStr <$> findall text), hc) ∧
     drain (S (length (findall text))) c2 hc
       = Some (Ok (VStr <$> findall text), hd)).
Proof.
  intros Hnew Hrun.
  destruct (reachable _ _ _ _ _ _ _ _ _ Hnew Hrun)
    as (ls & w & cs & -> & -> & -> & Hs & Hinv & Hag).
  split_and!; [| |done|].
  - destruct (client_inv_begin _ _ _ _ _ _ Hinv)
      as (c & h' & fp & Hiter & Hinv' & Hnew' & _).
    assert ((cs ++ [Cursor c 0 fp]) !! length cs = Some (Cursor c 0 fp))
      as Hk0 by by rewrite lookup_app_r, Nat.sub_diag by lia.
    destruct (hand_written_cursor _ _ _ _ _ _ _ Hinv' Hk0)
      as (l & attrs & Hc & Hfp & _ & Hl & _ & Hidx & _).
    simpl in *. subst c fp.
    exists l, attrs, h'. split_and!; [done|set_solver| |done..].
    intros (d & Hd & Hin)%list_elem_of_fmap.
    apply list_elem_of_lookup in Hin as [k Hk].
    destruct (hand_written_cursor _ _ _ _ _ _ _ Hinv Hk)
      as (l' & ? & Hc' & Hfp' & _).
    destruct Hinv as (_ & Hcs & _).
    destruct (Hcs _ _ Hk) as (_ & Hsub & _).
    rewrite Hc' in Hd. injection Hd as ->. set_solver.
  - intros j1 j2 c1 c2 k Hne H1 H2.
    rewrite list_lookup_fmap in H1, H2.
    destruct (cs !! j1) as [d1|] eqn:Hd1; [|done].
    destruct (cs !! j2) as [d2|] eqn:Hd2; [|done].
    injection H1 as <-. injection H2 as <-.
    destruct (hand_written_cursor _ _ _ _ _ _ _ Hinv Hd1)
      as (l1 & ? & Hc1 & Hfp1 & _).
    destruct (hand_written_cursor _ _ _ _ _ _ _ Hinv Hd2)
      as (l2 & ? & Hc2 & Hfp2 & _ & Hl2 & _).
    assert (footprint d1 ## footprint d2) as Hdisj.
    { destruct Hinv as (_ & _ & Hdisj). eauto. }
    assert (l1 ≠ l2) by set_solver.
    split; [congruence|]. exists l2. split; [done|].
    destruct (advance_n_inv _ _ _ _ k _ _ _ _ Hinv Hd1)
      as (h' & d1' & -> & Hinv' & _ & _ & Hag').
    simpl. split.
    + apply Hag'. apply elem_of_difference. split; [|set_solver].
      by apply elem_of_dom.
    + destruct (client_inv_advance _ _ _ _ _ _ _ _ Hinv Hd2)
        as (? & ? & -> & _).
      assert (<[j1:=d1']> cs !! j2 = Some d2) as Hd2'
        by by rewrite list_lookup_insert_ne.
      by destruct (client_inv_advance _ _ _ _ _ _ _ _ Hinv' Hd2')
        as (? & ? & -> & _).
  - destruct (client_inv_begin _ _ _ _ _ _ Hinv)
      as (c1 & ha & fp1 & Hiter1 & Hinv1 & Hnew1 & _).
    destruct (client_inv_begin _ _ _ _ _ _ Hinv1)
      as (c2 & hb & fp2 & Hiter2 & Hinv2 & Hnew2 & _).
    assert ((cs ++ [Cursor c1 0 fp1]) ++ [Cursor c2 0 fp2]
            = cs ++ [Cursor c1 0 fp1; Cursor c2 0 fp2]) as Hcs2
      by by rewrite <-app_assoc.
    rewrite Hcs2 in Hinv2.
    assert ((cs ++ [Cursor c1 0 fp1; Cursor c2 0 fp2]) !! length cs
            = Some (Cursor c1 0 fp1)) as Hk1.
    { by rewrite lookup_app_r, Nat.sub_diag by lia. }
    assert ((cs ++ [Cursor c1 0 fp1; Cursor c2 0 fp2]) !! S (length cs)
            = Some (Cursor c2 0 fp2)) as Hk2.
    { rewrite lookup_app_r by lia.
      by replace (S (length cs) - length cs) with 1 by lia. }
    destruct (drain_tokens _ _ _ _ (S (length (findall text))) _ _ _ _
                Hinv2 Hk1) as (hc & d1' & Hdrain1 & Hinvc & _);
      [simpl; lia|].
    destruct (drain_tokens _ _ _ _ (S (length (findall text))) hc _
                (S (length cs)) (Cursor c2 0 fp2) Hinvc)
      as (hd & d2' & Hdrain2 & _); [|simpl; lia|].
    { by rewrite list_lookup_insert_ne by lia. }
    exists c1, c2, ha, hb, hc, hd. split_and!; try done.
    destruct (hand_written_cursor _ _ _ _ _ _ _ Hinv2 Hk1)
      as (l1 & ? & Hc1 & Hfp1 & _).
    destruct (hand_written_cursor _ _ _ _ _ _ _ Hinv2 Hk2)
      as (l2 & ? & Hc2 & Hfp2 & _).
    destruct Hinv2 as (_ & _ & Hdisj).
    assert (footprint (Cursor c1 0 fp1) ## footprint (Cursor c2 0 fp2))
      as Hd12 by (eapply Hdisj; [|done..]; lia).
    simpl in *. subst. intros [= ->]. set_solver.
Qed.

(** Claim C3. The object of every cursor stands for a state of the
    specification's machine ([Active i] is [_index = i]; [Exhausted] is
    [_index] at the token count), a new cursor stands for [Active 0], and
    [__next__] follows the machine from every state the object stands
    for: from [Active i] with a token at [i] it returns that token and
    moves to [Active (i + 1)]; from [Active n] it raises [StopIteration]
    and moves to [Exhausted]; from [Exhausted] it raises [StopIteration]
    and stays there. *)
Theorem C3_advance_state_machine (text : str) (h0 h1 h : heap) (s : value)
    (script : list cmd) (evs : list event) (cursors : list value)
    (j : nat) (c : value) :
  Sentence_new hand_written (VStr text) h0 = (Ok s, h1) →
  run s script [] h1 = (evs, cursors, h) →
  cursors !! j = Some c →
  ∃ l w o,
    c = VRef l ∧ h !! l = Some o ∧
    (∃ a, cursor_abs w (length (findall text)) o a) ∧
    (∀ a, cursor_abs w (length (findall text)) o a →
       ∃ r o' a',
         next c h = (r, <[l:=o']> h) ∧
         spec_step (findall text) a r a' ∧
         cursor_abs w (length (findall text)) o' a') ∧
    (∃ l0 o0 h', iter s h = (Ok (VRef l0), h') ∧ h' !! l0 = Some o0 ∧
       cursor_abs w (length (findall text)) o0 (Active 0)).
Proof.
  intros Hnew Hrun Hc.
  destruct (reachable _ _ _ _ _ _ _ _ _ Hnew Hrun)
    as (ls & w & cs & -> & -> & -> & Hs & Hinv & Hag).
  rewrite list_lookup_fmap in Hc.
  destruct (cs !! j) as [d|] eqn:Hd; [|done]. injection Hc as <-.
  destruct (hand_written_cursor _ _ _ _ _ _ _ Hinv Hd)
    as (l & attrs & Hc & Hfp & Hpos & Hl & Hwords & Hidx & Hw & Hnext).
  exists l, w, (Instance C_SentenceIterator attrs).
  split_and!; [done..| | |].
  - exists (Active (position d)), attrs, (position d). by split_and!.
  - intros a (attrs' & i & [= <-] & _ & Hidx' & Ha).
    rewrite Hidx in Hidx'. injection Hidx' as Hi.
    apply Nat2Z.inj in Hi. rewrite Hnext.
    erewrite next_SentenceIterator by done. rewrite list_lookup_fmap.
    destruct (findall text !! position d) as [t|] eqn:Ht; simpl.
    + pose proof (lookup_lt_Some _ _ _ Ht).
      destruct a as [k|]; [|lia]. destruct Ha as [-> _]. subst i.
      eexists _, _, (Active (S (position d))). split_and!; [done| |].
      * by constructor.
      * eexists _, (S (position d)). split_and!; [done| | |done|lia].
        -- by rewrite lookup_insert_ne.
        -- by rewrite lookup_insert_eq.
    + apply lookup_ge_None in Ht.
      assert (position d = length (findall text)) as Hn by lia.
      exists (Raise StopIteration), (Instance C_SentenceIterator attrs),
        Exhausted.
      split_and!.
      * by rewrite insert_id.
      * destruct a as [k|]; [|constructor].
        destruct Ha as [-> _]. subst i. rewrite Hn. constructor.
      * exists attrs, (position d). by split_and!.
  - destruct (client_inv_begin _ _ _ _ _ _ Hinv)
      as (c0 & h' & fp & Hiter & Hinv' & _).
    assert ((cs ++ [Cursor c0 0 fp]) !! length cs = Some (Cursor c0 0 fp))
      as Hk0 by by rewrite lookup_app_r, Nat.sub_diag by lia.
    destruct (hand_written_cursor _ _ _ _ _ _ _ Hinv' Hk0)
      as (l0 & attrs0 & Hc0 & _ & _ & Hl0 & ? & ? & _).
    simpl in *. subst c0.
    exists l0, (Instance C_SentenceIterator attrs0), h'.
    split_and!; [done..|]. exists attrs0, 0. split_and!; try done. lia.
Qed.

Lemma model_run_exhausted (tokens : list str) script positions j i k :
  positions !! j = Some i → length tokens ≤ i →
  script !! k = Some (Advance j) →
  model_run tokens script positions !! k
    = Some (Advanced (Raise StopIteration)).
Proof.
  revert positions k. induction script as [|[|j'] script IH];
    intros positions k Hj Hi Hk; [done|..].
  - destruct k as [|k]; [done|]. simpl in *. apply IH; [|done..].
    by apply lookup_app_l_Some.
  - simpl. destruct k as [|k].
    + injection Hk as ->. rewrite Hj. simpl. unfold nth_result.
      by rewrite (proj2 (lookup_ge_None _ _)) by done.
    + simpl in Hk. destruct (positions !! j') as [i'|] eqn:Hj'; simpl;
        [|by apply IH].
      apply IH; [|done..]. case_decide; [|done].
      destruct (decide (j = j')) as [->|]; [|by rewrite list_lookup_insert_ne].
      assert (i' = i) by congruence. lia.
Qed.

(** Claim C4. Once [next] on a cursor has raised [StopIteration], every
    later [next] on it raises [StopIteration] again: any number of
    repeated calls, and also after any further activity of the client on
    this or other cursors; it never returns a token and never raises any
    other exception. *)
Theorem C4_exhausted_stays_exhausted (text : str) (h0 h1 h h' : heap)
    (s : value) (script : list cmd) (evs : list event)
    (cursors : list value) (j : nat) (c : value) :
  Sentence_new hand_written (VStr text) h0 = (Ok s, h1) →
  run s script [] h1 = (evs, cursors, h) →
  cursors !! j = Some c →
  next c h = (Raise StopIteration, h') →
  (∀ k, advance_n k c h' = (replicate k (Raise StopIteration), h')) ∧
  (∀ script2 evs2 cursors2 h2,
     run s script2 cursors h' = (evs2, cursors2, h2) →
     (next c h2).1 = Raise StopIteration ∧
     ∀ i, script2 !! i = Some (Advance j) →
          evs2 !! i = Some (Advanced (Raise StopIteration))).
Proof.
  intros Hnew Hrun Hc Hstop.
  destruct (reachable _ _ _ _ _ _ _ _ _ Hnew Hrun)
    as (ls & w & cs & -> & -> & -> & Hs & Hinv & Hag).
  rewrite list_lookup_fmap in Hc.
  destruct (cs !! j) as [d|] eqn:Hd; [|done]. injection Hc as <-.
  destruct (hand_written_cursor _ _ _ _ _ _ _ Hinv Hd)
    as (l & attrs & Hc & Hfp & Hpos & Hl & Hwords & Hidx & Hw & Hnext).
  assert (SentenceIterator.__next__ (VRef l) h = (Raise StopIteration, h)
          ∧ h' = h ∧ position d = length (findall text))
    as (Hstop' & -> & Hn).
  { rewrite Hnext in Hstop.
    erewrite next_SentenceIterator in Hstop |- * by done.
    rewrite list_lookup_fmap in Hstop |- *.
    destruct (findall text !! position d) eqn:Ht; [done|].
    apply lookup_ge_None in Ht. injection Hstop as <-.
    split_and!; [done..|lia]. }
  split.
  - induction k as [|k IH]; [done|].
    by rewrite advance_n_S, Hnext, Hstop', IH.
  - intros script2 evs2 cursors2 h2 Hrun2.
    destruct (run_model _ _ _ _ script2 _ _ Hinv)
      as (cs2 & h2' & Hrun2' & Hinv2 & _ & Hmono).
    rewrite Hrun2 in Hrun2'. injection Hrun2' as -> -> ->.
    destruct (Hmono _ _ Hd) as (d' & Hd' & Hh & Hp).
    split.
    + destruct (client_inv_advance _ _ _ _ _ _ _ _ Hinv2 Hd')
        as (? & ? & Hnext2 & _).
      rewrite <-Hh, Hnext2. simpl. unfold nth_result.
      by rewrite (proj2 (lookup_ge_None _ _)) by lia.
    + intros i Hi. eapply model_run_exhausted; [|reflexivity|done].
      rewrite list_lookup_fmap, Hd. simpl. by rewrite Hn.
Qed.

(** Claim C10. [iter] applied to a cursor returns that same cursor and
    allocates nothing, so advancing the result advances the cursor itself;
    only [iter] applied to the sentence gives a new cursor. *)
Theorem C10_iter_of_cursor_is_identity (text : str) (h0 h1 h : heap)
    (s : value) (script : list cmd) (evs : list event)
    (cursors : list value) (j : nat) (c : value) :
  Sentence_new hand_written (VStr text) h0 = (Ok s, h1) →
  run s script [] h1 = (evs, cursors, h) →
  cursors !! j = Some c →
  iter c h = (Ok c, h) ∧
  (c' ← iter c; next c') h = next c h ∧
  (∃ c2 h2, iter s h = (Ok c2, h2) ∧ c2 ≠ c).
Proof.
  intros Hnew Hrun Hc.
  destruct (reachable _ _ _ _ _ _ _ _ _ Hnew Hrun)
    as (ls & w & cs & -> & -> & -> & Hs & Hinv & Hag).
  rewrite list_lookup_fmap in Hc.
  destruct (cs !! j) as [d|] eqn:Hd; [|done]. injection Hc as <-.
  destruct (hand_written_cursor _ _ _ _ _ _ _ Hinv Hd)
    as (l & attrs & Hc & _ & _ & Hl & _).
  assert (iter (handle d) h = (Ok (handle d), h)) as Hid.
  { rewrite Hc. unfold iter. by erewrite bind_Ok by by apply deref_Ok. }
  split_and!; [done|by erewrite bind_Ok by done|].
  destruct (client_inv_begin _ _ _ _ _ _ Hinv)
    as (c2 & h2 & fp & Hiter & Hinv' & Hnew' & _).
  exists c2, h2. split; [done|].
  assert ((cs ++ [Cursor c2 0 fp]) !! length cs = Some (Cursor c2 0 fp))
    as Hk0 by by rewrite lookup_app_r, Nat.sub_diag by lia.
  destruct (hand_written_cursor _ _ _ _ _ _ _ Hinv' Hk0)
    as (l2 & ? & Hc2 & Hfp2 & _).
  simpl in *. subst. rewrite Hc. intros [= ->].
  assert (l ∈ dom h) by by apply elem_of_dom. set_solver.
Qed.

Lemma findall_no_words (text : str) :
  forallb (λ c, negb (is_word c)) text = true → findall text = [].
Proof.
  intros Hall. unfold findall. rewrite match_spans_maximal_runs.
  destruct (maximal_runs text) as [|[b e] l] eqn:E; [done|].
  assert ((b, e) ∈ maximal_runs text) as Hin by (rewrite E; left).
  apply elem_of_maximal_runs in Hin as (Hbe & Hin & _).
  specialize (Hin b ltac:(lia)). unfold word_at in Hin.
  destruct (text !! b) as [c|] eqn:Hb; [|done].
  rewrite forallb_forall in Hall.
  apply list_elem_of_lookup_2, list_elem_of_In, Hall in Hb.
  by rewrite Hin in Hb.
Qed.

(** Claim C5. One traversal of the sentence of the notebook yields
    exactly the eleven tokens Return, a, list, of, all, non, overlapping,
    matches, in, the, string, in this order, and no token holds a blank, a
    hyphen or a full stop. *)
Theorem C5_demo_sentence (h0 : heap) :
  ∃ s h1 h2,
    Sentence_new hand_written (VStr (str_of demo_sentence)) h0 = (Ok s, h1) ∧
    traverse 12 s h1 = Some (Ok (VStr ∘ str_of <$> demo_tokens), h2) ∧
    length demo_tokens = 11 ∧
    forallb
      (forallb (λ c, is_word c && negb (bool_decide (c ∈ str_of " -."))))
      (str_of <$> demo_tokens) = true.
Proof.
  assert (findall (str_of demo_sentence) = str_of <$> demo_tokens) as Hf
    by by vm_compute.
  destruct (traverse_tokens hand_written (str_of demo_sentence) h0 12)
    as (s & h1 & h2 & Hnew & Htr).
  { rewrite Hf. vm_compute. lia. }
  exists s, h1, h2. split_and!; [done| |done|by vm_compute].
  rewrite Htr, Hf. by rewrite <-list_fmap_compose.
Qed.

(** Claim C6. For an input without word characters (the empty string
    included) the constructor succeeds, the list of words is empty, and
    the first [next] on any cursor raises [StopIteration] at once: the
    [IndexError] of the list access is turned into [StopIteration]. For
    every input, [StopIteration] is the only exception [next] raises on a
    cursor. *)
Theorem C6_no_word_characters (text : str) (h0 : heap) :
  forallb (λ c, negb (is_word c)) text = true →
  (∃ ls w attrs h1 it h2,
     Sentence_new hand_written (VStr text) h0 = (Ok (VRef ls), h1) ∧
     h1 !! ls = Some (Instance C_Sentence attrs) ∧
     attrs !! "words" = Some (VRef w) ∧
     h1 !! w = Some (PyList []) ∧
     iter (VRef ls) h1 = (Ok it, h2) ∧
     getitem (VRef w) (VInt 0) h2 = (Raise IndexError, h2) ∧
     next it h2 = (Raise StopIteration, h2) ∧
     traverse 1 (VRef ls) h1 = Some (Ok [], h2) ∧
     (∀ script evs cursors h j c,
        run (VRef ls) script [] h1 = (evs, cursors, h) →
        cursors !! j = Some c →
        next c h = (Raise StopIteration, h))) ∧
  (∀ text' h0' s' h1' script evs cursors h j c e,
     Sentence_new hand_written (VStr text') h0' = (Ok s', h1') →
     run s' script [] h1' = (evs, cursors, h) →
     cursors !! j = Some c →
     (next c h).1 = Raise e → e = StopIteration).
Proof.
  intros Hno. apply findall_no_words in Hno. split.
  - destruct (Sentence_new_rep hand_written text h0)
      as (ls & w & h1 & Hnew & Hs & _).
    assert (∀ h cs j d,
              client_inv hand_written text ls w h cs → cs !! j = Some d →
              next (handle d) h = (Raise StopIteration, h) ∧
              getitem (VRef w) (VInt 0) h = (Raise IndexError, h))
      as Hstop.
    { intros h cs j d Hinv Hd.
      destruct (hand_written_cursor _ _ _ _ _ _ _ Hinv Hd)
        as (l & attrs & Hc & _ & Hpos & Hl & Hwords & Hidx & Hw & Hnext).
      split.
      - rewrite Hnext. erewrite next_SentenceIterator by done.
        by rewrite Hno.
      - change (VInt 0) with (VInt (Z.of_nat 0)).
        rewrite (getitem_list _ _ _ 0 Hw). by rewrite Hno. }
    assert (client_inv hand_written text ls w h1 []) as Hinv.
    { split_and!; [done|intros ?? [=]|intros ???? _ [=]]. }
    destruct (client_inv_begin _ _ _ _ _ _ Hinv)
      as (it & h2 & fp & Hiter & Hinv' & _).
    destruct (Hstop h2 _ (length (@nil cursor)) (Cursor it 0 fp) Hinv')
      as [Hnext Hget]; [done|].
    pose proof Hs as (attrs & Hls & _ & Hwords & Hw).
    rewrite Hno in Hw.
    exists ls, w, attrs, h1, it, h2. split_and!; try done.
    + unfold traverse. rewrite Hiter. simpl in *. by rewrite Hnext.
    + intros script evs cursors h j c Hrun Hc.
      destruct (reachable _ _ _ _ _ _ _ _ _ Hnew Hrun)
        as (ls' & w' & cs & [= <-] & -> & -> & Hs' & Hinv2 & _).
      assert (w' = w) as ->.
      { destruct Hs' as (attrs' & Hls' & _ & Hwords' & _). congruence. }
      rewrite list_lookup_fmap in Hc.
      destruct (cs !! j) as [d|] eqn:Hd; [|done]. injection Hc as <-.
      by destruct (Hstop _ _ _ _ Hinv2 Hd).
  - intros text' h0' s' h1' script evs cursors h j c e Hnew Hrun Hc.
    destruct (reachable _ _ _ _ _ _ _ _ _ Hnew Hrun)
      as (ls & w & cs & -> & -> & -> & Hs & Hinv & _).
    rewrite list_lookup_fmap in Hc.
    destruct (cs !! j) as [d|] eqn:Hd; [|done]. injection Hc as <-.
    destruct (client_inv_advance _ _ _ _ _ _ _ _ Hinv Hd)
      as (? & ? & -> & _).
    simpl. unfold nth_result.
    destruct (findall text' !! position d); [done|]. by intros [= <-].
Qed.
End claims.

(** * Chapter 21: the metaclass *)

Section metaclass.
Import Ch21.
Implicit Types (dic : odict) (fields : field_heap) (dicts : dict_heap).
Implicit Types (cls : pyclass) (inst : instance).


















End metaclass.

Section metaclass_example.
Import Ch21.

End metaclass_example.

(** * Further properties of the notebooks' code *)

Section more_regex.
Context `{UDB : !UnicodeDB}.

Lemma filter_word_none (l : str) :
  (∀ i, i < length l → word_at l i = false) →
  filter (λ c, is_word c) l = [].
Proof.
  induction l as [|c l IH]; intros Hl; [done|].
  rewrite filter_cons. pose proof (Hl 0 ltac:(simpl; lia)) as H0.
  unfold word_at in H0. simpl in H0. rewrite H0. simpl.
  apply IH. intros i Hi. apply (Hl (S i)). simpl. lia.
Qed.

Lemma filter_word_all (l : str) :
  (∀ i, i < length l → word_at l i = true) →
  filter (λ c, is_word c) l = l.
Proof.
  induction l as [|c l IH]; intros Hl; [done|].
  rewrite filter_cons. pose proof (Hl 0 ltac:(simpl; lia)) as H0.
  unfold word_at in H0. simpl in H0. rewrite H0. simpl. f_equal.
  apply IH. intros i Hi. apply (Hl (S i)). simpl. lia.
Qed.

Lemma word_at_take (s : str) n i :
  i < n → word_at (take n s) i = word_at s i.
Proof. intros Hi. unfold word_at. by rewrite lookup_take_lt. Qed.

Lemma scan_loop_concat fuel (s : str) pos :
  length s - pos < fuel →
  concat (group s <$> scan_loop fuel s pos)
  = filter (λ c, is_word c) (drop pos s).
Proof.
  revert pos. induction fuel as [|fuel IH]; intros pos Hfuel; [lia|].
  simpl. destruct (search s pos) as [[b e]|] eqn:Hs.
  - pose proof (search_bound _ _ _ _ Hs) as Hle.
    apply search_Some in Hs as (Hb & Hskip & Hin & Hend).
    rewrite fmap_cons, concat_cons, IH by lia.
    rewrite <-(take_drop (b - pos) (drop pos s)), drop_drop.
    replace (pos + (b - pos)) with b by lia.
    rewrite <-(take_drop (e - b) (drop b s)). rewrite drop_drop.
    replace (b + (e - b)) with e by lia.
    rewrite !filter_app.
    assert (filter (λ c, is_word c) (take (b - pos) (drop pos s)) = [])
      as ->.
    { apply filter_word_none. intros i Hi. rewrite length_take in Hi.
      rewrite word_at_take, word_at_drop by lia. apply Hskip. lia. }
    assert (filter (λ c, is_word c) (take (e - b) (drop b s))
            = take (e - b) (drop b s)) as ->; [|done].
    apply filter_word_all. intros i Hi. rewrite length_take in Hi.
    rewrite word_at_take, word_at_drop by lia. apply Hin. lia.
  - symmetry. apply filter_word_none. intros i _.
    rewrite word_at_drop. eapply search_None; [done|lia].
Qed.

(** Extra X9. The words of a sentence, concatenated, are the text with
    every non-word character removed: no word character is lost, repeated
    or reordered; and every word is non-empty and made of word characters
    only. *)
Theorem findall_concat (text : str) :
  concat (findall text) = filter (λ c, is_word c) text ∧
  Forall (λ t : str, t ≠ [] ∧ Forall (λ c, is_word c = true) t)
    (findall text).
Proof.
  split.
  - unfold findall, match_spans, spans_from.
    rewrite scan_loop_concat by lia. by rewrite drop_0.
  - unfold findall. rewrite match_spans_maximal_runs.
    apply Forall_forall. intros t ([b e] & -> & Hrun)%list_elem_of_fmap.
    apply elem_of_maximal_runs in Hrun.
    pose proof (maximal_run_bounds _ _ _ Hrun) as Hbe.
    destruct Hrun as (_ & Hin & _). unfold group. simpl. split.
    + intros Hnil. apply (f_equal length) in Hnil.
      rewrite length_take, length_drop in Hnil. simpl in Hnil. lia.
    + apply Forall_lookup. intros i c Hc.
      pose proof (lookup_lt_Some _ _ _ Hc) as Hi.
      rewrite length_take in Hi.
      rewrite lookup_take_lt, lookup_drop in Hc by lia.
      specialize (Hin (b + i) ltac:(lia)). unfold word_at in Hin.
      by rewrite Hc in Hin.
Qed.
End more_regex.

Section more_iteration.
Context `{UDB : !UnicodeDB}.

(** Extra X1. In each of the three cells the loop [for word in sentence]
    ends and produces the maximal runs of word characters of the text, in
    order: also with the generator function, and with the generator
    expression over [finditer], which keeps no list of words. *)
Theorem traversal_any_cell (v : variant) (text : str) (h0 : heap)
    (fuel : nat) :
  length (maximal_runs text) < fuel →
  ∃ s h1 h2,
    Sentence_new v (VStr text) h0 = (Ok s, h1) ∧
    traverse fuel s h1
      = Some (Ok (VStr <$> (group text <$> maximal_runs text)), h2).
Proof.
  intros Hfuel.
  destruct (traverse_tokens v text h0 fuel) as (s & h1 & h2 & Hnew & Htr).
  { unfold findall. by rewrite length_fmap, match_spans_maximal_runs. }
  exists s, h1, h2. split; [done|].
  rewrite Htr. unfold findall. by rewrite match_spans_maximal_runs.
Qed.

(** Extra X2. In each of the three cells, whatever traversals a client
    begins and whatever generators it advances, the sentence object (and,
    where there is one, its list of words) is afterwards what the
    constructor left. *)
Theorem sentence_unchanged_any_cell (v : variant) (text : str)
    (h0 h1 h : heap) (s : value) (script : list cmd) (evs : list event)
    (cursors : list value) :
  Sentence_new v (VStr text) h0 = (Ok s, h1) →
  run s script [] h1 = (evs, cursors, h) →
  ∃ ls w,
    s = VRef ls ∧ sentence_rep v text ls w h1 ∧
    h !! ls = h1 !! ls ∧ h !! w = h1 !! w.
Proof.
  intros Hnew Hrun.
  destruct (reachable _ _ _ _ _ _ _ _ _ Hnew Hrun)
    as (ls & w & cs & -> & _ & _ & Hs & _ & Hag).
  exists ls, w. split_and!; [done..| |]; apply Hag; set_solver.
Qed.

Lemma cursor_handle v text ls w h cs j c :
  client_inv v text ls w h cs → cs !! j = Some c →
  ∃ l, handle c = VRef l ∧ l ∈ footprint c ∧ l ∈ dom h ∧
       iter (handle c) h = (Ok (handle c), h).
Proof.
  intros (_ & Hcs & _) Hj.
  destruct (Hcs _ _ Hj) as ((_ & Hrep) & Hsub & _).
  destruct v.
  - destruct Hrep as (l & attrs & Hc & Hfp & Hl & _).
    exists l. rewrite Hc. split_and!; [done|set_solver|by apply elem_of_dom|].
    unfold iter. by erewrite bind_Ok by by apply deref_Ok.
  - destruct Hrep as (g & Hc & [(Hg & _ & Hfp)|[(it & Hg & _ & Hfp)|(Hg & _ & Hfp)]]);
      exists g; rewrite Hc;
      (split_and!; [done|set_solver|by apply elem_of_dom|]);
      unfold iter; (erewrite bind_Ok by by apply deref_Ok); cbn beta iota;
      unfold iter_builtin; by erewrite bind_Ok by by apply deref_Ok.
  - destruct Hrep as (g & Hc & [(it & p & Hg & _ & _ & Hfp)|(Hg & _ & Hfp)]);
      exists g; rewrite Hc;
      (split_and!; [done|set_solver|by apply elem_of_dom|]);
      unfold iter; (erewrite bind_Ok by by apply deref_Ok); cbn beta iota;
      unfold iter_builtin; by erewrite bind_Ok by by apply deref_Ok.
Qed.

(** Extra X4. In each of the three cells a traversal request returns an
    object that did not exist before, which is neither the sentence nor any
    cursor handed out earlier; and [iter] applied to a cursor or generator
    returns that same object and changes nothing. *)
Theorem fresh_cursor_any_cell (v : variant) (text : str)
    (h0 h1 h : heap) (s : value) (script : list cmd) (evs : list event)
    (cursors : list value) :
  Sentence_new v (VStr text) h0 = (Ok s, h1) →
  run s script [] h1 = (evs, cursors, h) →
  (∃ l h', iter s h = (Ok (VRef l), h') ∧ (l ∉ dom h) ∧
           (VRef l ∉ cursors) ∧ VRef l ≠ s) ∧
  (∀ j c, cursors !! j = Some c → iter c h = (Ok c, h)).
Proof.
  intros Hnew Hrun.
  destruct (reachable _ _ _ _ _ _ _ _ _ Hnew Hrun)
    as (ls & w & cs & -> & -> & -> & Hs & Hinv & Hag).
  split.
  - destruct (client_inv_begin _ _ _ _ _ _ Hinv)
      as (c & h' & fp & Hiter & Hinv' & Hnew' & _).
    assert ((cs ++ [Cursor c 0 fp]) !! length cs = Some (Cursor c 0 fp))
      as Hk0 by by rewrite lookup_app_r, Nat.sub_diag by lia.
    destruct (cursor_handle _ _ _ _ _ _ _ _ Hinv' Hk0)
      as (l & Hc & Hl & _). simpl in *. subst c.
    pose proof (sentence_rep_dom _ _ _ _ _ (proj1 Hinv)) as [Hls _].
    exists l, h'. split_and!; [done|set_solver| |].
    + intros (d & Hd & Hin)%list_elem_of_fmap.
      apply list_elem_of_lookup in Hin as [k Hk].
      destruct (cursor_handle _ _ _ _ _ _ _ _ Hinv Hk) as (l' & Hc' & _ & ? & _).
      rewrite Hc' in Hd. injection Hd as ->. set_solver.
    + intros [= ->]. set_solver.
  - intros j c Hc. rewrite list_lookup_fmap in Hc.
    destruct (cs !! j) as [d|] eqn:Hd; [|done]. injection Hc as <-.
    by destruct (cursor_handle _ _ _ _ _ _ _ _ Hinv Hd) as (? & _ & _ & _ & ?).
Qed.

(** Extra X3. In each of the three cells, once [next] on a cursor or
    generator has raised [StopIteration], it raises [StopIteration] at
    every later call, whatever the client does in between on this or other
    cursors. *)
Theorem exhausted_any_cell (v : variant) (text : str)
    (h0 h1 h h' : heap) (s : value) (script : list cmd) (evs : list event)
    (cursors : list value) (j : nat) (c : value) :
  Sentence_new v (VStr text) h0 = (Ok s, h1) →
  run s script [] h1 = (evs, cursors, h) →
  cursors !! j = Some c →
  next c h = (Raise StopIteration, h') →
  ∀ script2 evs2 cursors2 h2,
    run s script2 cursors h' = (evs2, cursors2, h2) →
    (next c h2).1 = Raise StopIteration ∧
    ∀ i, script2 !! i = Some (Advance j) →
         evs2 !! i = Some (Advanced (Raise StopIteration)).
Proof.
  intros Hnew Hrun Hc Hstop script2 evs2 cursors2 h2 Hrun2.
  destruct (reachable _ _ _ _ _ _ _ _ _ Hnew Hrun)
    as (ls & w & cs & -> & -> & -> & Hs & Hinv & Hag).
  rewrite list_lookup_fmap in Hc.
  destruct (cs !! j) as [d|] eqn:Hd; [|done]. injection Hc as <-.
  destruct (client_inv_advance _ _ _ _ _ _ _ _ Hinv Hd)
    as (h1' & fp' & Hnext & Hinv1 & _).
  rewrite Hstop in Hnext. injection Hnext as Hres <-.
  assert (length (findall text) ≤ position d) as Hn.
  { unfold nth_result in Hres.
    destruct (findall text !! position d) eqn:Ht; [done|].
    by apply lookup_ge_None. }
  rewrite decide_False in Hinv1 by lia.
  pose proof (lookup_lt_Some _ _ _ Hd) as Hlt.
  destruct (run_model _ _ _ _ script2 _ _ Hinv1)
    as (cs2 & h2' & Hrun2' & Hinv2 & _ & Hmono).
  rewrite list_fmap_insert in Hrun2'. simpl in Hrun2'.
  rewrite (list_insert_id (handle <$> cs)) in Hrun2'
    by by rewrite list_lookup_fmap, Hd.
  rewrite Hrun2 in Hrun2'. injection Hrun2' as -> -> ->.
  destruct (Hmono j _ (list_lookup_insert_eq _ _ _ Hlt)) as (d' & Hd' & Hh & Hp).
  simpl in *. split.
  - destruct (client_inv_advance _ _ _ _ _ _ _ _ Hinv2 Hd')
      as (? & ? & Hnext2 & _).
    rewrite <-Hh, Hnext2. simpl. unfold nth_result.
    by rewrite (proj2 (lookup_ge_None _ _)) by lia.
  - intros i Hi. eapply model_run_exhausted; [|exact Hn|done].
    rewrite list_fmap_insert. simpl. apply list_lookup_insert_eq.
    by rewrite length_fmap.
Qed.
End more_iteration.

Section more_cells.
Context `{UDB : !UnicodeDB}.

(** Extra X5. An argument that is not a [str] is rejected with [TypeError]
    by the constructors of the first two cells, which run [re.findall]; the
    constructor of the third cell accepts it, and the [TypeError] comes
    from [finditer] at the first traversal request. *)
Theorem non_string_argument (x : value) (h0 : heap) :
  (∀ t, x ≠ VStr t) →
  (Sentence_new hand_written x h0).1 = Raise TypeError ∧
  (Sentence_new generator_function x h0).1 = Raise TypeError ∧
  ∃ s h1,
    Sentence_new generator_expression x h0 = (Ok s, h1) ∧
    (iter s h1).1 = Raise TypeError.
Proof.
  intros Hx.
  assert (∀ h, re_findall x h = (Raise TypeError, h)) as Hfind.
  { intros h. destruct x; try done. by destruct (Hx s). }
  split_and!.
  - unfold Sentence_new, instantiate.
    erewrite bind_Ok by reflexivity.
    erewrite bind_Raise; [done|]. unfold Sentence.__init__.
    erewrite bind_Ok by (apply setattr_Ok, lookup_insert_eq).
    erewrite bind_Raise; [done|]. apply Hfind.
  - unfold Sentence_new, instantiate.
    erewrite bind_Ok by reflexivity.
    erewrite bind_Raise; [done|]. unfold Sentence_gen.__init__.
    erewrite bind_Ok by (apply setattr_Ok, lookup_insert_eq).
    erewrite bind_Raise; [done|]. apply Hfind.
  - eexists _, _. split.
    + unfold Sentence_new, instantiate.
      erewrite bind_Ok by reflexivity.
      erewrite bind_Ok; [done|]. unfold Sentence_genexp.__init__.
      erewrite bind_Ok by reflexivity.
      erewrite bind_Ok by (apply setattr_Ok, lookup_insert_eq).
      apply setattr_Ok, lookup_insert_eq.
    + unfold iter. erewrite bind_Ok by apply deref_Ok, lookup_insert_eq.
      cbn beta iota. unfold Sentence_genexp.__iter__.
      erewrite bind_Ok.
      2:{ eapply getattr_Ok; [apply lookup_insert_eq|].
          by rewrite lookup_insert_ne, lookup_insert_eq. }
      erewrite bind_Ok.
      2:{ eapply getattr_Ok; [apply lookup_insert_eq|].
          by rewrite lookup_insert_eq. }
      erewrite bind_Raise; [done|].
      unfold finditer. destruct x; try done. by destruct (Hx s).
Qed.

Lemma advance_n_snd k it h :
  (advance_n (S k) it h).2 = (advance_n k it (next it h).2).2.
Proof.
  rewrite advance_n_S. destruct (next it h) as [r h1]. simpl.
  by destruct (advance_n k it h1).
Qed.

Lemma advance_n_index k h l w attrs i items :
  h !! l = Some (Instance C_SentenceIterator attrs) →
  attrs !! "words" = Some (VRef w) →
  attrs !! "_index" = Some (VInt (Z.of_nat i)) →
  h !! w = Some (PyList items) →
  ∃ attrs',
    (advance_n k (VRef l) h).2 !! l
      = Some (Instance C_SentenceIterator attrs') ∧
    attrs' !! "words" = Some (VRef w) ∧
    attrs' !! "_index"
      = Some (VInt (Z.of_nat (i + k `min` (length items - i)))) ∧
    (advance_n k (VRef l) h).2 !! w = Some (PyList items).
Proof.
  revert h attrs i. induction k as [|k IH]; intros h attrs i Hl Hw Hi Hitems.
  { exists attrs. rewrite Nat.min_0_l, Nat.add_0_r. by split_and!. }
  assert (l ≠ w) as Hlw by (intros ->; congruence).
  rewrite advance_n_snd.
  assert (next (VRef l) h = SentenceIterator.__next__ (VRef l) h) as ->.
  { unfold next. by erewrite bind_Ok by by apply deref_Ok. }
  erewrite next_SentenceIterator by done.
  destruct (items !! i) as [x|] eqn:Hx; cbn [snd].
  - pose proof (lookup_lt_Some _ _ _ Hx).
    edestruct (IH (<[l:=Instance C_SentenceIterator
                          (<["_index":=VInt (Z.of_nat (S i))]> attrs)]> h))
      as (attrs' & Hl' & Hw' & Hi' & Hitems').
    { apply lookup_insert_eq. }
    { by rewrite lookup_insert_ne. }
    { apply lookup_insert_eq. }
    { by rewrite lookup_insert_ne. }
    exists attrs'. split_and!; [done..| |done].
    rewrite Hi'. do 2 f_equal. lia.
  - apply lookup_ge_None in Hx.
    edestruct (IH h) as (attrs' & Hl' & Hw' & Hi' & Hitems'); [done..|].
    exists attrs'. split_and!; [done..| |done].
    rewrite Hi'. do 2 f_equal. lia.
Qed.

(** Extra X6. After [k] calls of [next] on a new hand-written cursor its
    [_index] is the smaller of [k] and the number of words: it counts the
    words returned, is never negative, and stops growing at the end. *)
Theorem index_counts_tokens (text : str) (h0 h1 h : heap) (s : value)
    (script : list cmd) (evs : list event) (cursors : list value)
    (k : nat) :
  Sentence_new hand_written (VStr text) h0 = (Ok s, h1) →
  run s script [] h1 = (evs, cursors, h) →
  ∃ l h' attrs,
    iter s h = (Ok (VRef l), h') ∧
    (advance_n k (VRef l) h').2 !! l
      = Some (Instance C_SentenceIterator attrs) ∧
    attrs !! "_index"
      = Some (VInt (Z.of_nat (k `min` length (findall text)))).
Proof.
  intros Hnew Hrun.
  destruct (reachable _ _ _ _ _ _ _ _ _ Hnew Hrun)
    as (ls & w & cs & -> & -> & -> & Hs & Hinv & Hag).
  destruct (client_inv_begin _ _ _ _ _ _ Hinv)
    as (c & h' & fp & Hiter & Hinv' & _).
  assert ((cs ++ [Cursor c 0 fp]) !! length cs = Some (Cursor c 0 fp))
    as Hk0 by by rewrite lookup_app_r, Nat.sub_diag by lia.
  destruct (hand_written_cursor _ _ _ _ _ _ _ Hinv' Hk0)
    as (l & attrs & Hc & _ & _ & Hl & Hwords & Hidx & Hw & _).
  simpl in *. subst c.
  destruct (advance_n_index k _ _ _ _ 0 _ Hl Hwords Hidx Hw)
    as (attrs' & Hl' & _ & Hi' & _).
  exists l, h', attrs'. split_and!; [done..|].
  rewrite Hi', length_fmap. do 2 f_equal. lia.
Qed.

Lemma list_append_Ok h w items v :
  h !! w = Some (PyList items) →
  list_append (VRef w) v h = (Ok tt, <[w:=PyList (items ++ [v])]> h).
Proof.
  intros Hw. unfold list_append. by erewrite bind_Ok by by apply deref_Ok.
Qed.

(** Extra X7. The hand-written cursor holds the list of the sentence
    itself, not a copy, and keeps no flag of having ended: when a word is
    appended to [sentence.words] after the cursor raised [StopIteration],
    the next call returns that word, and the call after it raises
    [StopIteration] again. *)
Theorem appended_word_revives_cursor (text : str) (h0 h1 h h' : heap)
    (s : value) (script : list cmd) (evs : list event)
    (cursors : list value) (j : nat) (c : value) (t : str) :
  Sentence_new hand_written (VStr text) h0 = (Ok s, h1) →
  run s script [] h1 = (evs, cursors, h) →
  cursors !! j = Some c →
  next c h = (Raise StopIteration, h') →
  ∃ h2 h3,
    (words ← getattr s "words"; list_append words (VStr t)) h'
      = (Ok tt, h2) ∧
    next c h2 = (Ok (VStr t), h3) ∧
    (next c h3).1 = Raise StopIteration.
Proof.
  intros Hnew Hrun Hc Hstop.
  destruct (reachable _ _ _ _ _ _ _ _ _ Hnew Hrun)
    as (ls & w & cs & -> & -> & -> & Hs & Hinv & Hag).
  rewrite list_lookup_fmap in Hc.
  destruct (cs !! j) as [d|] eqn:Hd; [|done]. injection Hc as <-.
  destruct (hand_written_cursor _ _ _ _ _ _ _ Hinv Hd)
    as (l & attrs & Hc & Hfp & Hpos & Hl & Hwords & Hidx & Hw & Hnext).
  destruct Hinv as ((sattrs & Hls & _ & Hsw & _) & _).
  assert (h' = h ∧ position d = length (findall text)) as [-> Hn].
  { rewrite Hnext in Hstop. erewrite next_SentenceIterator in Hstop by done.
    rewrite list_lookup_fmap in Hstop.
    destruct (findall text !! position d) eqn:Ht; [done|].
    apply lookup_ge_None in Ht. injection Hstop as <-. split; [done|lia]. }
  assert (l ≠ w) as Hlw by (intros ->; congruence).
  rewrite Hc.
  assert (∀ hh a, hh !! l = Some (Instance C_SentenceIterator a) →
            next (VRef l) hh = SentenceIterator.__next__ (VRef l) hh)
    as Hnext'.
  { intros hh a Hhh. unfold next. by erewrite bind_Ok by by apply deref_Ok. }
  eexists _, _. split_and!.
  - erewrite bind_Ok by eauto using getattr_Ok.
    by apply list_append_Ok.
  - erewrite Hnext' by by rewrite lookup_insert_ne.
    erewrite next_SentenceIterator;
      [|by rewrite lookup_insert_ne|done..|apply lookup_insert_eq].
    rewrite Hn, <-(length_fmap VStr), lookup_app_r, Nat.sub_diag by done.
    done.
  - erewrite Hnext' by apply lookup_insert_eq.
    erewrite next_SentenceIterator;
      [|apply lookup_insert_eq|by rewrite lookup_insert_ne
       |apply lookup_insert_eq
       |rewrite lookup_insert_ne by done; apply lookup_insert_eq].
    rewrite (proj2 (lookup_ge_None _ _)); [done|].
    rewrite length_app, length_fmap. simpl. lia.
Qed.

Lemma generator_raise_finishes h g f e h' :
  h !! g = Some (Generator f) →
  next (VRef g) h = (Raise e, h') →
  h' !! g = Some (Generator gen_done).
Proof.
  intros Hg. unfold next. erewrite bind_Ok by by apply deref_Ok.
  cbn beta iota.
  destruct f as [self|it|it|];
    unfold gen_next, gen_loop_round, genexp_loop_round, raise;
    repeat case_match; intros [= <- <-]; try apply lookup_insert_eq; done.
Qed.

(** Extra X8. The generator of the second cell, once it has raised
    [StopIteration], is finished: a word appended to [sentence.words]
    afterwards is not produced, and [next] raises [StopIteration] without
    changing anything. *)
Theorem appended_word_after_generator_end (text : str) (h0 h1 h h' : heap)
    (s : value) (script : list cmd) (evs : list event)
    (cursors : list value) (j : nat) (c : value) (t : str) :
  Sentence_new generator_function (VStr text) h0 = (Ok s, h1) →
  run s script [] h1 = (evs, cursors, h) →
  cursors !! j = Some c →
  next c h = (Raise StopIteration, h') →
  ∃ h2,
    (words ← getattr s "words"; list_append words (VStr t)) h'
      = (Ok tt, h2) ∧
    next c h2 = (Raise StopIteration, h2).
Proof.
  intros Hnew Hrun Hc Hstop.
  destruct (reachable _ _ _ _ _ _ _ _ _ Hnew Hrun)
    as (ls & w & cs & -> & -> & -> & Hs & Hinv & Hag).
  rewrite list_lookup_fmap in Hc.
  destruct (cs !! j) as [d|] eqn:Hd; [|done]. injection Hc as <-.
  destruct (client_inv_advance _ _ _ _ _ _ _ _ Hinv Hd)
    as (h1' & fp' & Hnext & Hinv1 & _).
  rewrite Hstop in Hnext. injection Hnext as _ <-.
  destruct Hinv1 as ((sattrs & Hls & _ & Hsw & Hw) & _).
  assert (∃ g f, handle d = VRef g ∧ h !! g = Some (Generator f))
    as (g & f & Hg & Hf).
  { destruct Hinv as (_ & Hcs & _).
    destruct (Hcs _ _ Hd) as ((_ & g & Hg & Hcase) & _).
    exists g. destruct Hcase as [(? & _)|[(it & ? & _)|(? & _)]]; eauto. }
  rewrite Hg in Hstop |- *.
  pose proof (generator_raise_finishes _ _ _ _ _ Hf Hstop) as Hdone.
  assert (g ≠ w) as Hgw.
  { intros Heq. rewrite Heq, Hw in Hdone. discriminate. }
  eexists. split.
  - erewrite bind_Ok by eauto using getattr_Ok.
    by apply list_append_Ok.
  - unfold next.
    erewrite bind_Ok
      by (apply deref_Ok; rewrite lookup_insert_ne by done; exact Hdone).
    done.
Qed.
End more_cells.

Section chain_facts.
Context `{UDB : !UnicodeDB}.

Lemma lists_kept_refl h : lists_kept h h.
Proof. by intros ??. Qed.

Lemma lists_kept_trans h1 h2 h3 :
  lists_kept h1 h2 → lists_kept h2 h3 → lists_kept h1 h3.
Proof. intros H12 H23 l items Hl. eauto. Qed.

Lemma lists_kept_insert (h : heap) l o :
  (∀ items, h !! l ≠ Some (PyList items)) → lists_kept h (<[l:=o]> h).
Proof.
  intros Hl l' items Hl'. rewrite lookup_insert_ne; [done|].
  intros ->. by eapply Hl.
Qed.

Lemma list_args_kept h h' xs itemss :
  list_args h xs itemss → lists_kept h h' → list_args h' xs itemss.
Proof.
  intros Hargs Hk. eapply Forall2_impl; [done|].
  intros x items (w & -> & Hw). eauto.
Qed.

Lemma next_list_iterator h it w i items :
  h !! it = Some (ListIterator (Some w) i) →
  h !! w = Some (PyList items) →
  next (VRef it) h =
  match items !! i with
  | Some v => (Ok v, <[it:=ListIterator (Some w) (S i)]> h)
  | None => (Raise StopIteration, <[it:=ListIterator None i]> h)
  end.
Proof.
  intros Hit Hw. rewrite <-(next_ListIterator _ _ _ _ _ Hit Hw).
  unfold next. by erewrite bind_Ok by by apply deref_Ok.
Qed.

Lemma iter_list h w items :
  h !! w = Some (PyList items) →
  iter (VRef w) h
  = (Ok (VRef (fresh (dom h))),
     <[fresh (dom h):=ListIterator (Some w) 0]> h).
Proof.
  intros Hw. unfold iter. erewrite bind_Ok by by apply deref_Ok.
  cbn beta iota. unfold iter_builtin.
  erewrite bind_Ok by by apply deref_Ok. cbn beta iota.
  by erewrite bind_Ok by done.
Qed.

Lemma chain_loop_lists tl ys itemss h :
  list_args h ys itemss →
  match concat itemss with
  | v :: out =>
      ∃ f' h', chain_loop (ys ++ tl) h = (Ok v, f', h') ∧
        chain_rep tl h' f' out ∧ lists_kept h h'
  | [] => ∃ h', chain_loop (ys ++ tl) h = chain_loop tl h' ∧ lists_kept h h'
  end.
Proof.
  revert itemss h. induction ys as [|y ys IH]; intros itemss h Hargs.
  - apply Forall2_nil_inv_l in Hargs as ->. simpl.
    exists h. split; [done|apply lists_kept_refl].
  - apply Forall2_cons_inv_l in Hargs
      as (items & itemss' & (w & -> & Hw) & Hargs & ->).
    pose proof (is_fresh (dom h)) as Hfresh.
    assert (h !! fresh (dom h) = None) as Hnone
      by by apply not_elem_of_dom.
    set (it := fresh (dom h)) in *.
    assert (lists_kept h (<[it:=ListIterator (Some w) 0]> h)) as Hk1.
    { apply lists_kept_insert. intros ?. by rewrite Hnone. }
    assert (∀ o, lists_kept h
              (<[it:=o]> (<[it:=ListIterator (Some w) 0]> h))) as Hk2.
    { intros o. eapply lists_kept_trans; [exact Hk1|].
      apply lists_kept_insert. intros ?. by rewrite lookup_insert_eq. }
    cbn [app chain_loop]. rewrite (iter_list _ _ _ Hw). fold it.
    erewrite next_list_iterator; [|apply lookup_insert_eq|by apply Hk1].
    destruct items as [|v items]; cbn [lookup list_lookup concat app].
    + specialize (IH itemss' _
        (list_args_kept _ _ _ _ Hargs (Hk2 (ListIterator None 0)))).
      destruct (concat itemss') as [|v out].
      * destruct IH as (h' & Heq & Hk). exists h'. split; [exact Heq|].
        eapply lists_kept_trans; [apply Hk2|exact Hk].
      * destruct IH as (f' & h' & Heq & Hrep & Hk). exists f', h'.
        split_and!; [exact Heq|done|].
        eapply lists_kept_trans; [apply Hk2|exact Hk].
    + eexists _, _. split_and!; [done| |apply Hk2].
      exists it, w, (v :: items), 1, ys, itemss'.
      split_and!; [done|apply lookup_insert_eq|by apply Hk2|done| |done].
      by eapply list_args_kept.
Qed.

Lemma chain_next_lists tl h f out :
  chain_rep tl h f out →
  match out with
  | v :: out' =>
      ∃ f' h', chain_next f h = (Ok v, f', h') ∧
        chain_rep tl h' f' out' ∧ lists_kept h h'
  | [] => ∃ h', chain_next f h = chain_loop tl h' ∧ lists_kept h h'
  end.
Proof.
  destruct f as [xs|it xs|]; simpl; [| |done].
  - intros (ys & itemss & -> & Hargs & ->).
    by apply chain_loop_lists.
  - intros (l & w & items & i & ys & itemss & -> & Hl & Hw & -> & Hargs & ->).
    assert (∀ o, lists_kept h (<[l:=o]> h)) as Hk.
    { intros o. apply lists_kept_insert. intros ?. by rewrite Hl. }
    rewrite (next_list_iterator _ _ _ _ _ Hl Hw).
    destruct (items !! i) as [v|] eqn:Hi.
    + rewrite (drop_S _ _ _ Hi). simpl.
      eexists _, _. split_and!; [done| |apply Hk].
      exists l, w, items, (S i), ys, itemss.
      split_and!; [done|apply lookup_insert_eq|by apply Hk|done| |done].
      by eapply list_args_kept.
    + apply lookup_ge_None in Hi. rewrite drop_ge by done. simpl.
      pose proof (chain_loop_lists tl ys itemss _
                    (list_args_kept _ _ _ _ Hargs (Hk (ListIterator None i))))
        as Hloop.
      destruct (concat itemss) as [|v out].
      * destruct Hloop as (h' & Heq & Hk'). exists h'. split; [exact Heq|].
        eapply lists_kept_trans; [apply Hk|exact Hk'].
      * destruct Hloop as (f' & h' & Heq & Hrep & Hk'). exists f', h'.
        split_and!; [exact Heq|done|].
        eapply lists_kept_trans; [apply Hk|exact Hk'].
Qed.

Lemma chain_advance_n_S k f h :
  chain_advance_n (S k) f h =
  let '(r, f', h') := chain_next f h in
  let '(rs, f'', h'') := chain_advance_n k f' h' in
  (r :: rs, f'', h'').
Proof. done. Qed.

Lemma chain_done_forever k h :
  chain_advance_n k chain_done h
  = (replicate k (Raise StopIteration), chain_done, h).
Proof.
  induction k as [|k IH]; [done|].
  rewrite chain_advance_n_S. simpl. by rewrite IH.
Qed.

(** While lists remain, the calls return their items in order; the call
    after the last item goes on with the arguments [tl]. *)
Lemma chain_advance_lists tl h f out :
  chain_rep tl h f out →
  ∃ h1, lists_kept h h1 ∧
    ∀ k, chain_advance_n (length out + S k) f h =
         let '(r, f', h') := chain_loop tl h1 in
         let '(rs, f'', h'') := chain_advance_n k f' h' in
         ((Ok <$> out) ++ r :: rs, f'', h'').
Proof.
  revert h f. induction out as [|v out IH]; intros h f Hrep.
  - destruct (chain_next_lists _ _ _ _ Hrep) as (h1 & Heq & Hk).
    exists h1. split; [done|]. intros k. simpl.
    by rewrite Heq.
  - destruct (chain_next_lists _ _ _ _ Hrep) as (f' & h' & Heq & Hrep' & Hk).
    destruct (IH _ _ Hrep') as (h1 & Hk1 & Hadv).
    exists h1. split; [by eapply lists_kept_trans|]. intros k.
    cbn [length Nat.add]. rewrite chain_advance_n_S, Heq, Hadv.
    destruct (chain_loop tl h1) as [[r f1] h2].
    by destruct (chain_advance_n k f1 h2) as [[rs f2] h3].
Qed.

Lemma chain_advance_prefix tl h f out k :
  chain_rep tl h f out → k ≤ length out →
  ∃ f' h', chain_advance_n k f h = (Ok <$> take k out, f', h') ∧
           lists_kept h h'.
Proof.
  revert h f out. induction k as [|k IH]; intros h f out Hrep Hk.
  { exists f, h. split; [done|apply lists_kept_refl]. }
  destruct out as [|v out]; [simpl in Hk; lia|].
  destruct (chain_next_lists _ _ _ _ Hrep) as (f' & h' & Heq & Hrep' & Hk').
  destruct (IH _ _ _ Hrep') as (f2 & h2 & Hadv & Hk2); [simpl in Hk; lia|].
  exists f2, h2. split; [|by eapply lists_kept_trans].
  by rewrite chain_advance_n_S, Heq, Hadv.
Qed.

(** Extra X10. [my_itertools_chain] over lists yields the items of the
    first list, then those of the second, and so on (empty lists are
    skipped); every call after the last item raises [StopIteration]; with
    no argument the first call does; and the lists are left unchanged. *)
Theorem chain_of_lists (h : heap) (xs : list value)
    (itemss : list (list value)) (k : nat) :
  list_args h xs itemss →
  ∃ f' h',
    chain_advance_n k (my_itertools_chain xs) h
      = ((Ok <$> take k (concat itemss))
           ++ replicate (k - length (concat itemss)) (Raise StopIteration),
         f', h') ∧
    lists_kept h h'.
Proof.
  intros Hargs.
  assert (chain_rep [] h (my_itertools_chain xs) (concat itemss)) as Hrep.
  { exists xs, itemss. by rewrite app_nil_r. }
  destruct (decide (k ≤ length (concat itemss))) as [Hle|Hgt].
  - destruct (chain_advance_prefix _ _ _ _ k Hrep Hle) as (f' & h' & -> & Hk).
    exists f', h'. split; [|done].
    replace (k - length (concat itemss)) with 0 by lia.
    by rewrite app_nil_r.
  - destruct (chain_advance_lists _ _ _ _ Hrep) as (h1 & Hk1 & Hadv).
    exists chain_done, h1. split; [|done].
    replace k with (length (concat itemss)
                    + S (k - S (length (concat itemss)))) at 1 by lia.
    rewrite Hadv. simpl. rewrite chain_done_forever.
    rewrite take_ge by lia.
    replace (k - length (concat itemss))
      with (S (k - S (length (concat itemss)))) by lia.
    done.
Qed.

(** Extra X11. An argument that is not iterable ([None] or an integer)
    makes [my_itertools_chain] fail only when the loop reaches it: the items
    of the lists before it are yielded first, the next call raises
    [TypeError], the arguments after it are never touched, and the
    generator is finished. *)
Theorem chain_reaches_non_iterable (h : heap) (ys zs : list value)
    (x : value) (itemss : list (list value)) (k : nat) :
  list_args h ys itemss →
  x = VNone ∨ (∃ z, x = VInt z) →
  ∃ h',
    chain_advance_n (length (concat itemss) + S k)
      (my_itertools_chain (ys ++ x :: zs)) h
      = ((Ok <$> concat itemss)
           ++ Raise TypeError :: replicate k (Raise StopIteration),
         chain_done, h') ∧
    lists_kept h h'.
Proof.
  intros Hargs Hx.
  assert (chain_rep (x :: zs) h (my_itertools_chain (ys ++ x :: zs))
            (concat itemss)) as Hrep.
  { by exists ys, itemss. }
  destruct (chain_advance_lists _ _ _ _ Hrep) as (h1 & Hk1 & Hadv).
  exists h1. split; [|done]. rewrite Hadv.
  assert (chain_loop (x :: zs) h1 = (Raise TypeError, chain_done, h1)) as ->.
  { by destruct Hx as [->|[z ->]]. }
  by rewrite chain_done_forever.
Qed.
End chain_facts.

Section dice_facts.
Variable randint_1_6 : nat → Z.

Lemma callable_list_from n calls fuel sentinel :
  randint_1_6 (calls + n) = sentinel →
  (∀ i, i < n → randint_1_6 (calls + i) ≠ sentinel) →
  n < fuel →
  callable_list randint_1_6 fuel sentinel (true, calls)
  = Some (Ok (randint_1_6 <$> seq calls n), (false, S (calls + n))).
Proof.
  revert calls fuel. induction n as [|n IH]; intros calls fuel Hn Hlt Hfuel.
  - destruct fuel as [|fuel]; [lia|]. simpl.
    rewrite Nat.add_0_r in Hn |- *. by rewrite decide_True.
  - destruct fuel as [|fuel]; [lia|]. simpl.
    pose proof (Hlt 0 ltac:(lia)) as H0. rewrite Nat.add_0_r in H0.
    rewrite decide_False by done.
    rewrite (IH (S calls) fuel); [| |intros i Hi|lia].
    + do 4 f_equal. lia.
    + rewrite <-Hn. f_equal. lia.
    + replace (S calls + i) with (calls + S i) by lia. apply Hlt. lia.
Qed.

(** Extra X12. [list(iter(rand, 5))] is the list of the rolls before the
    first 5: it never holds a 5, every entry is one of 1, 2, 3, 4, 6,
    [rand] is called once more than the list is long, and the iterator,
    once ended, calls [rand] no more. *)
Theorem rolls_until_five (n fuel : nat) :
  (∀ k, (1 ≤ randint_1_6 k ≤ 6)%Z) →
  randint_1_6 n = 5%Z →
  (∀ i, i < n → randint_1_6 i ≠ 5%Z) →
  n < fuel →
  ∃ rolls,
    callable_list randint_1_6 fuel 5 (true, 0)
      = Some (Ok rolls, (false, S n)) ∧
    rolls = randint_1_6 <$> seq 0 n ∧
    Forall (λ v, v ∈ [1; 2; 3; 4; 6]%Z) rolls ∧
    callable_next randint_1_6 5 (false, S n)
      = (Raise StopIteration, (false, S n)).
Proof.
  intros Hrange Hn Hlt Hfuel. exists (randint_1_6 <$> seq 0 n).
  split_and!; [by apply (callable_list_from n 0)|done| |done].
  apply Forall_fmap, Forall_forall. intros i Hi%elem_of_seq. simpl.
  specialize (Hrange i). specialize (Hlt i ltac:(lia)).
  assert (randint_1_6 i = 1 ∨ randint_1_6 i = 2 ∨ randint_1_6 i = 3 ∨
          randint_1_6 i = 4 ∨ randint_1_6 i = 6)%Z as Hcases by lia.
  set_solver.
Qed.
End dice_facts.

Section descriptors.
Import Ch21.
Implicit Types (dic : odict) (fields : field_heap) (dicts : dict_heap).
Implicit Types (cls : pyclass) (inst : instance).


















End descriptors.

(** * The theorems at concrete inputs *)

#[local] Existing Instance ascii_only.

Lemma C1_witness :
  length (maximal_runs example_text) < 3 ∧
  ∃ s h1 h2 tokens,
    Sentence_new hand_written (VStr example_text) ∅ = (Ok s, h1) ∧
    traverse 3 s h1 = Some (Ok (VStr <$> tokens), h2) ∧
    length tokens = length (maximal_runs example_text) ∧
    tokens = group example_text <$> maximal_runs example_text.
Proof.
  split; [vm_compute; lia|].
  apply (C1_tokens_are_maximal_runs example_text ∅ 3). vm_compute; lia.
Defined.

Lemma C2_witness :
  Sentence_new hand_written (VStr example_text) ∅
    = (Ok (VRef 0), example_start.2) ∧
  run (VRef 0) example_script [] example_start.2
    = (example_state.1.1, example_state.1.2, example_state.2) ∧
  example_state.1.1 = model_run (findall example_text) example_script [].
Proof.
  assert (Sentence_new hand_written (VStr example_text) ∅
          = (Ok (VRef 0), example_start.2)) as Hnew by by vm_compute.
  assert (run (VRef 0) example_script [] example_start.2
          = (example_state.1.1, example_state.1.2, example_state.2)) as Hrun
    by by vm_compute.
  split_and!; [done..|].
  exact (proj1 (proj2 (proj2
    (C2_fresh_independent_cursors example_text ∅ _ _ _ _ _ _ Hnew Hrun)))).
Defined.

Lemma C3_witness :
  example_state.1.2 !! 1 = Some (VRef 3) ∧
  ∃ l w o,
    VRef 3 = VRef l ∧ example_state.2 !! l = Some o ∧
    (∃ a, cursor_abs w (length (findall example_text)) o a) ∧
    (∀ a, cursor_abs w (length (findall example_text)) o a →
       ∃ r o' a',
         next (VRef 3) example_state.2 = (r, <[l:=o']> example_state.2) ∧
         spec_step (findall example_text) a r a' ∧
         cursor_abs w (length (findall example_text)) o' a') ∧
    (∃ l0 o0 h', iter (VRef 0) example_state.2 = (Ok (VRef l0), h') ∧
       h' !! l0 = Some o0 ∧
       cursor_abs w (length (findall example_text)) o0 (Active 0)).
Proof.
  split; [by vm_compute|].
  apply (C3_advance_state_machine example_text ∅ example_start.2
           example_state.2 (VRef 0) example_script example_state.1.1
           example_state.1.2 1 (VRef 3)); by vm_compute.
Defined.

Lemma C4_witness :
  next (VRef 2) example_state.2 = (Raise StopIteration, example_state.2) ∧
  (∀ k, advance_n k (VRef 2) example_state.2
        = (replicate k (Raise StopIteration), example_state.2)) ∧
  (∀ script2 evs2 cursors2 h2,
     run (VRef 0) script2 example_state.1.2 example_state.2
       = (evs2, cursors2, h2) →
     (next (VRef 2) h2).1 = Raise StopIteration ∧
     ∀ i, script2 !! i = Some (Advance 0) →
          evs2 !! i = Some (Advanced (Raise StopIteration))).
Proof.
  split; [by vm_compute|].
  apply (C4_exhausted_stays_exhausted example_text ∅ example_start.2
           example_state.2 example_state.2 (VRef 0) example_script
           example_state.1.1 example_state.1.2 0 (VRef 2)); by vm_compute.
Defined.

Lemma C6_witness :
  forallb (λ c, negb (is_word c)) (str_of " -.") = true ∧
  ∃ ls w attrs h1 it h2,
    Sentence_new hand_written (VStr (str_of " -.")) ∅ = (Ok (VRef ls), h1) ∧
    h1 !! ls = Some (Instance C_Sentence attrs) ∧
    attrs !! "words" = Some (VRef w) ∧
    h1 !! w = Some (PyList []) ∧
    iter (VRef ls) h1 = (Ok it, h2) ∧
    getitem (VRef w) (VInt 0) h2 = (Raise IndexError, h2) ∧
    next it h2 = (Raise StopIteration, h2) ∧
    traverse 1 (VRef ls) h1 = Some (Ok [], h2) ∧
    (∀ script evs cursors h j c,
       run (VRef ls) script [] h1 = (evs, cursors, h) →
       cursors !! j = Some c →
       next c h = (Raise StopIteration, h)).
Proof.
  split; [reflexivity|].
  apply (C6_no_word_characters (str_of " -.") ∅). reflexivity.
Defined.

Lemma C8_witness :
  ∃ ls w attrs,
    VRef 0 = VRef ls ∧
    example_start.2 !! ls = Some (Instance C_Sentence attrs) ∧
    attrs !! "sentence" = Some (VStr example_text) ∧
    attrs !! "words" = Some (VRef w) ∧
    example_start.2 !! w = Some (PyList (VStr <$> findall example_text)) ∧
    example_state.2 !! ls = example_start.2 !! ls ∧
    example_state.2 !! w = example_start.2 !! w.
Proof.
  apply (C8_sentence_unchanged example_text ∅ example_start.2
           example_state.2 (VRef 0) example_script example_state.1.1
           example_state.1.2); by vm_compute.
Defined.

Lemma C10_witness :
  example_state.1.2 !! 1 = Some (VRef 3) ∧
  iter (VRef 3) example_state.2 = (Ok (VRef 3), example_state.2) ∧
  (c' ← iter (VRef 3); next c') example_state.2
    = next (VRef 3) example_state.2 ∧
  (∃ c2 h2, iter (VRef 0) example_state.2 = (Ok c2, h2) ∧ c2 ≠ VRef 3).
Proof.
  split; [by vm_compute|].
  apply (C10_iter_of_cursor_is_identity example_text ∅ example_start.2
           example_state.2 (VRef 0) example_script example_state.1.1
           example_state.1.2 1 (VRef 3)); by vm_compute.
Defined.

(** * The further properties at concrete inputs *)

Lemma traversal_any_cell_witness :
  length (maximal_runs example_text) < 3 ∧
  ∃ s h1 h2,
    Sentence_new generator_expression (VStr example_text) ∅ = (Ok s, h1) ∧
    traverse 3 s h1
      = Some (Ok (VStr <$> (group example_text <$> maximal_runs example_text)),
              h2).
Proof.
  split; [vm_compute; lia|].
  apply (traversal_any_cell generator_expression example_text ∅ 3).
  vm_compute; lia.
Defined.

Lemma sentence_unchanged_any_cell_witness :
  ∃ ls w,
    VRef 0 = VRef ls ∧
    sentence_rep generator_function example_text ls w
      (example_start_of generator_function).2 ∧
    (example_state_of generator_function).2 !! ls
      = (example_start_of generator_function).2 !! ls ∧
    (example_state_of generator_function).2 !! w
      = (example_start_of generator_function).2 !! w.
Proof.
  apply (sentence_unchanged_any_cell generator_function example_text ∅
           (example_start_of generator_function).2
           (example_state_of generator_function).2 (VRef 0) example_script
           (example_state_of generator_function).1.1
           (example_state_of generator_function).1.2); by vm_compute.
Defined.

Lemma exhausted_any_cell_witness :
  next (VRef 2) (example_state_of generator_expression).2
    = (Raise StopIteration,
       (next (VRef 2) (example_state_of generator_expression).2).2) ∧
  ∀ script2 evs2 cursors2 h2,
    run (VRef 0) script2 (example_state_of generator_expression).1.2
      (next (VRef 2) (example_state_of generator_expression).2).2
      = (evs2, cursors2, h2) →
    (next (VRef 2) h2).1 = Raise StopIteration ∧
    ∀ i, script2 !! i = Some (Advance 0) →
         evs2 !! i = Some (Advanced (Raise StopIteration)).
Proof.
  split; [by vm_compute|].
  apply (exhausted_any_cell generator_expression example_text ∅
           (example_start_of generator_expression).2
           (example_state_of generator_expression).2
           (next (VRef 2) (example_state_of generator_expression).2).2
           (VRef 0) example_script
           (example_state_of generator_expression).1.1
           (example_state_of generator_expression).1.2 0 (VRef 2));
    by vm_compute.
Defined.

Lemma fresh_cursor_any_cell_witness :
  (∃ l h', iter (VRef 0) (example_state_of generator_function).2
             = (Ok (VRef l), h') ∧
           (l ∉ dom (example_state_of generator_function).2) ∧
           (VRef l ∉ (example_state_of generator_function).1.2) ∧
           VRef l ≠ VRef 0) ∧
  (∀ j c, (example_state_of generator_function).1.2 !! j = Some c →
          iter c (example_state_of generator_function).2
            = (Ok c, (example_state_of generator_function).2)).
Proof.
  apply (fresh_cursor_any_cell generator_function example_text ∅
           (example_start_of generator_function).2
           (example_state_of generator_function).2 (VRef 0) example_script
           (example_state_of generator_function).1.1
           (example_state_of generator_function).1.2); by vm_compute.
Defined.

Lemma non_string_argument_witness :
  (Sentence_new hand_written (VInt 5) ∅).1 = Raise TypeError ∧
  (Sentence_new generator_function (VInt 5) ∅).1 = Raise TypeError ∧
  ∃ s h1,
    Sentence_new generator_expression (VInt 5) ∅ = (Ok s, h1) ∧
    (iter s h1).1 = Raise TypeError.
Proof. apply (non_string_argument (VInt 5) ∅). intros t. discriminate. Defined.

Lemma index_counts_tokens_witness :
  ∃ l h' attrs,
    iter (VRef 0) example_state.2 = (Ok (VRef l), h') ∧
    (advance_n 5 (VRef l) h').2 !! l
      = Some (Instance C_SentenceIterator attrs) ∧
    attrs !! "_index"
      = Some (VInt (Z.of_nat (5 `min` length (findall example_text)))).
Proof.
  apply (index_counts_tokens example_text ∅ example_start.2 example_state.2
           (VRef 0) example_script example_state.1.1 example_state.1.2 5);
    by vm_compute.
Defined.

Lemma appended_word_revives_cursor_witness :
  next (VRef 2) example_state.2 = (Raise StopIteration, example_state.2) ∧
  ∃ h2 h3,
    (words ← getattr (VRef 0) "words"; list_append words (VStr (str_of "ef")))
      example_state.2 = (Ok tt, h2) ∧
    next (VRef 2) h2 = (Ok (VStr (str_of "ef")), h3) ∧
    (next (VRef 2) h3).1 = Raise StopIteration.
Proof.
  split; [by vm_compute|].
  apply (appended_word_revives_cursor example_text ∅ example_start.2
           example_state.2 example_state.2 (VRef 0) example_script
           example_state.1.1 example_state.1.2 0 (VRef 2) (str_of "ef"));
    by vm_compute.
Defined.

Lemma appended_word_after_generator_end_witness :
  next (VRef 2) (example_state_of generator_function).2
    = (Raise StopIteration, (example_state_of generator_function).2) ∧
  ∃ h2,
    (words ← getattr (VRef 0) "words"; list_append words (VStr (str_of "ef")))
      (example_state_of generator_function).2 = (Ok tt, h2) ∧
    next (VRef 2) h2 = (Raise StopIteration, h2).
Proof.
  split; [by vm_compute|].
  apply (appended_word_after_generator_end example_text ∅
           (example_start_of generator_function).2
           (example_state_of generator_function).2
           (example_state_of generator_function).2 (VRef 0) example_script
           (example_state_of generator_function).1.1
           (example_state_of generator_function).1.2 0 (VRef 2)
           (str_of "ef")); by vm_compute.
Defined.

Lemma chain_of_lists_witness :
  ∃ f' h',
    chain_advance_n 7 (my_itertools_chain [VRef 0; VRef 1]) chain_heap
      = ([Ok (VInt 1); Ok (VInt 2); Ok (VInt 3); Ok (VInt 4); Ok (VInt 5);
          Raise StopIteration; Raise StopIteration], f', h') ∧
    lists_kept chain_heap h'.
Proof.
  apply (chain_of_lists chain_heap [VRef 0; VRef 1]
           [[VInt 1; VInt 2]; [VInt 3; VInt 4; VInt 5]] 7).
  repeat constructor; eexists; (split; [reflexivity|by vm_compute]).
Defined.

Lemma chain_reaches_non_iterable_witness :
  ∃ h',
    chain_advance_n 4 (my_itertools_chain [VRef 0; VInt 5; VRef 1]) chain_heap
      = ([Ok (VInt 1); Ok (VInt 2); Raise TypeError; Raise StopIteration],
         chain_done, h') ∧
    lists_kept chain_heap h'.
Proof.
  apply (chain_reaches_non_iterable chain_heap [VRef 0] [VRef 1] (VInt 5)
           [[VInt 1; VInt 2]] 1).
  - repeat constructor; eexists; (split; [reflexivity|by vm_compute]).
  - right. by exists 5%Z.
Defined.

Lemma rolls_until_five_witness :
  ∃ rolls,
    callable_list example_rolls 4 5 (true, 0) = Some (Ok rolls, (false, 4)) ∧
    rolls = example_rolls <$> seq 0 3 ∧
    Forall (λ v, v ∈ [1; 2; 3; 4; 6]%Z) rolls ∧
    callable_next example_rolls 5 (false, 4)
      = (Raise StopIteration, (false, 4)).
Proof.
  apply (rolls_until_five example_rolls 3 4).
  - intros [|[|[|[|k]]]]; vm_compute; split; discriminate.
  - reflexivity.
  - intros [|[|[|i]]] Hi; [by vm_compute..|lia].
  - lia.
Defined.

(** * Chapter 21 at concrete inputs *)

Import Ch21.






